(** * The draft room of triple-draft: turn order, pick checks and the picks table

    A shallow embedding of [src/app/draft/[roomCode]/page.tsx].

    - JavaScript numbers that hold pick numbers and array indices are
      integers; they are modelled as [Z].  In the safe-integer range the
      floating-point [Math.ceil (a / b)], [%] and comparisons of the source
      agree with the integer operations used here.
    - A value that may be [null]/[undefined] is an [option].
    - A [Set] is a stdpp [gset]; arrays are lists.
    - The Supabase tables are explicit state ([Db]); what a browser session
      holds in React state is a [View]. *)

From Stdlib Require Import ZArith Lia Ascii.
From stdpp Require Import base numbers list sorting strings gmap.

Local Open Scope Z_scope.

(** ** JavaScript primitives used by the page *)

(** [Math.ceil (a / b)] for integers [a] and [b > 0]. *)
Definition ceil_div (a b : Z) : Z := - ((- a) / b).

(** [a % b]: the remainder takes the sign of the dividend. *)
Definition js_rem (a b : Z) : Z := Z.rem a b.

(** [arr[i] ?? null]: an index outside the array reads [undefined]. *)
Definition js_index {A} (arr : list A) (i : Z) : option A :=
  if decide (0 ≤ i) then arr !! Z.to_nat i else None.

(** ** Draft Order Resolver (page.tsx, lines 117-152) *)

(** Snake + 3rd round reversal; [draftOrder] is the round 1 order. *)
Definition getCoachIdForPick (overallPickNumber : Z) (draftOrder : list string)
  : option string :=
  let n := Z.of_nat (length draftOrder) in
  if decide (n = 0) then None
  else
    let roundNumber := ceil_div overallPickNumber n in
    let indexInRound0 := js_rem (overallPickNumber - 1) n in
    let isReverse :=
      bool_decide (roundNumber = 2)
      || bool_decide (roundNumber = 3)
      || (bool_decide (5 ≤ roundNumber) && bool_decide (js_rem roundNumber 2 = 1)) in
    let idx := if isReverse then n - 1 - indexInRound0 else indexInRound0 in
    js_index draftOrder idx.

(** "Up next" means [overallPickNumber + 1]. *)
Definition getNextCoachIdForPick (overallPickNumber : Z) (draftOrder : list string)
  : option string :=
  getCoachIdForPick (overallPickNumber + 1) draftOrder.

Definition roundAndPickInRound (overallPickNumber nCoaches : Z) : Z * Z :=
  (ceil_div overallPickNumber nCoaches,
   js_rem (overallPickNumber - 1) nCoaches + 1).

(** The direction rule in the words of the specification. *)
Definition reversed_round (r : Z) : Prop :=
  r = 2 ∨ r = 3 ∨ (5 ≤ r ∧ Z.odd r = true).


(** ** Row types (page.tsx, lines 7-42)

    Each record lives in a module of its own so that the fields keep the
    names they have in the source. *)

Module Room.
Record t := mk { id : string; name : string; draft_order : list string }.
End Room.

Module Coach.
Record t := mk { id : string; coach_name : string }.
End Coach.

Module Player.
(** [ppg] is a display score; nothing modelled here reads it. *)
Record t := mk {
  id : string; room_id : string; player_name : string;
  nfl_team : string; position : string; ppg : option Z }.
End Player.

Module PickPlayer.
Record t := mk {
  id : string; player_name : string;
  nfl_team : string; position : string; ppg : option Z }.
End PickPlayer.

Module PickCoach.
Record t := mk { id : string; coach_name : string }.
End PickCoach.

(** A row of the [picks] table as it is stored.  The column [round] holds the
    OVERALL PICK NUMBER (1,2,3...); [created_at] is a time instant. *)
Module PickRec.
Record t := mk {
  id : string; room_id : string; coach_id : string;
  round : Z; player_id : string; created_at : Z }.
End PickRec.

(** A pick as [loadPicks] returns it: the stored columns and the two
    embedded rows [player:players (...)] and [coach:coaches (...)]. *)
Module PickRow.
Record t := mk {
  id : string; room_id : string; coach_id : string;
  round : Z; player_id : string; created_at : Z;
  player : option PickPlayer.t; coach : option PickCoach.t }.
End PickRow.

Global Instance Player_eq_dec : EqDecision Player.t.
Proof. solve_decision. Defined.

Global Instance PickRec_eq_dec : EqDecision PickRec.t.
Proof. solve_decision. Defined.

(** ** The database and the environment of a call *)

Record Db := mkDb {
  picks_tbl : list PickRec.t;
  players_tbl : list Player.t;
  coaches_tbl : list Coach.t }.

(** What the outside world answers while one handler runs: the error (if any)
    of each Supabase request, the column defaults [id] and [created_at] that
    the database gives an inserted row, and the answer to [window.confirm]. *)
Record Env := mkEnv {
  insert_error : option string;
  new_id : string;
  now : Z;
  latest_error : option string;
  delete_error : option string;
  load_error : option string;
  confirm_ok : bool }.

(** React state of one browser session. *)
Record View := mkView {
  room : option Room.t;
  coach : option Coach.t;
  players : list Player.t;
  picks : list PickRow.t;
  search : string;
  posFilter : string }.

(** How a handler ends: the alert it shows, a silent [return], or success. *)
Inductive Outcome :=
| NotLoaded              (* [if (!room || !coach) return;], [if (!room?.id) return;] *)
| InvalidConfiguration   (* "Draft order is not set for this room." *)
| OutOfTurn              (* "Not your turn. On the clock: ..." *)
| TeamConflict           (* "You already drafted a player from ... One per team." *)
| AlreadyDrafted         (* "That player is already drafted." *)
| DbError (msg : string) (* [alert(error.message)] *)
| Forbidden              (* "Commissioner only." *)
| Declined               (* the confirm dialog was cancelled *)
| EmptyLedger            (* "No picks to undo." *)
| Committed              (* the pick was inserted *)
| Undone.                (* the latest pick was deleted *)

Global Instance Outcome_eq_dec : EqDecision Outcome.
Proof. solve_decision. Defined.

(** ** Queries (page.tsx, lines 187-206 and 455-474) *)

Definition find_player (db : Db) (pid : string) : option Player.t :=
  snd <$> list_find (λ p, Player.id p = pid) (players_tbl db).

Definition find_coach (db : Db) (cid : string) : option Coach.t :=
  snd <$> list_find (λ c, Coach.id c = cid) (coaches_tbl db).

Definition to_PickPlayer (p : Player.t) : PickPlayer.t :=
  PickPlayer.mk (Player.id p) (Player.player_name p) (Player.nfl_team p)
                (Player.position p) (Player.ppg p).

Definition to_PickCoach (c : Coach.t) : PickCoach.t :=
  PickCoach.mk (Coach.id c) (Coach.coach_name c).

Definition join_pick (db : Db) (r : PickRec.t) : PickRow.t :=
  PickRow.mk (PickRec.id r) (PickRec.room_id r) (PickRec.coach_id r)
             (PickRec.round r) (PickRec.player_id r) (PickRec.created_at r)
             (to_PickPlayer <$> find_player db (PickRec.player_id r))
             (to_PickCoach <$> find_coach db (PickRec.coach_id r)).

(** [.eq("room_id", roomId)]: the stored picks of one room, the ledger. *)
Definition ledger (roomId : string) (db : Db) : list PickRec.t :=
  filter (λ r, PickRec.room_id r = roomId) (picks_tbl db).

(** [.order("round", { ascending: true })] *)
Definition by_round (a b : PickRow.t) : Prop := PickRow.round a ≤ PickRow.round b.

Global Instance by_round_dec : RelDecision by_round.
Proof. unfold by_round. solve_decision. Defined.

(** The rows in the order of their keys; the database does not say in
    which order it returns rows with equal keys. *)
Definition select_picks (roomId : string) (db : Db) : list PickRow.t :=
  merge_sort by_round (join_pick db <$> ledger roomId db).

Definition set_picks (v : View) (ps : list PickRow.t) : View :=
  mkView (room v) (coach v) (players v) ps (search v) (posFilter v).

(** [if (!res.error && res.data) setPicks(res.data)] *)
Definition loadPicks (e : Env) (roomId : string) (v : View) (db : Db) : View :=
  match load_error e with
  | None => set_picks v (select_picks roomId db)
  | Some _ => v
  end.

(** [.order("round", desc).order("created_at", desc)] *)
Definition newer_first (a b : PickRec.t) : Prop :=
  PickRec.round b < PickRec.round a
  ∨ (PickRec.round a = PickRec.round b ∧ PickRec.created_at b ≤ PickRec.created_at a).

Global Instance newer_first_dec : RelDecision newer_first.
Proof. unfold newer_first. solve_decision. Defined.

(** [.limit(1).maybeSingle()] *)
Definition latest_pick (roomId : string) (db : Db) : option PickRec.t :=
  head (merge_sort newer_first (ledger roomId db)).

(** [supabase.from("picks").insert({...})] *)
Definition insert_pick (r : PickRec.t) (db : Db) : Db :=
  mkDb (picks_tbl db ++ [r]) (players_tbl db) (coaches_tbl db).

(** [supabase.from("picks").delete().eq("id", i)] *)
Definition delete_pick (i : string) (db : Db) : Db :=
  mkDb (filter (λ r, PickRec.id r ≠ i) (picks_tbl db)) (players_tbl db) (coaches_tbl db).

(** ** Derived state (page.tsx, lines 174 and 323-384) *)

Definition isCommissioner (v : View) : bool :=
  bool_decide (Coach.coach_name <$> coach v = Some "Rowland").

Definition nCoaches (v : View) : Z :=
  default 0 ((λ rm, Z.of_nat (length (Room.draft_order rm))) <$> room v).

Definition draftedPlayerIds (v : View) : gset string :=
  list_to_set (PickRow.player_id <$> picks v).

(** [p.coach?.id ? p.coach.id === coach.id : p.coach_id === coach.id] *)
Definition pick_is_mine (c : Coach.t) (p : PickRow.t) : Prop :=
  match PickRow.coach p with
  | Some pc =>
      if decide (PickCoach.id pc = EmptyString)
      then PickRow.coach_id p = Coach.id c
      else PickCoach.id pc = Coach.id c
  | None => PickRow.coach_id p = Coach.id c
  end.

Global Instance pick_is_mine_dec c p : Decision (pick_is_mine c p).
Proof. unfold pick_is_mine. destruct (PickRow.coach p); [case_decide|]; apply _. Defined.

(** [Array.prototype.sort] is stable: [a] is put before [b] when the
    comparison does not put [b] strictly first, and elements the comparison
    does not tell apart keep the order they had. *)
Fixpoint sort_insert {A} (R : relation A) `{!RelDecision R} (x : A) (l : list A)
  : list A :=
  match l with
  | [] => [x]
  | y :: l' => if decide (R x y) then x :: y :: l' else y :: sort_insert R x l'
  end.

Definition stable_sort {A} (R : relation A) `{!RelDecision R} (l : list A) : list A :=
  foldr (sort_insert R) [] l.

(** [.sort((a, b) => a.round - b.round)] *)
Definition myPicks (v : View) : list PickRow.t :=
  match coach v with
  | None => []
  | Some c => stable_sort by_round (filter (pick_is_mine c) (picks v))
  end.

(** [.filter(Boolean)] drops [undefined] and the empty string. *)
Definition myTeamsUsed (v : View) : gset string :=
  list_to_set
    (filter (λ t, t ≠ EmptyString)
       (omap (λ p, PickPlayer.nfl_team <$> PickRow.player p) (myPicks v))).

Definition nextOverallPick (v : View) : Z := Z.of_nat (length (picks v)) + 1.

Definition nextSlot (v : View) : Z * Z :=
  if decide (nCoaches v = 0) then (0, 0)
  else roundAndPickInRound (nextOverallPick v) (nCoaches v).

Definition onTheClockCoachId (v : View) : option string :=
  match room v with
  | Some rm =>
      if decide (Room.draft_order rm = []) then None
      else getCoachIdForPick (nextOverallPick v) (Room.draft_order rm)
  | None => None
  end.

Definition upNextCoachId (v : View) : option string :=
  match room v with
  | Some rm =>
      if decide (Room.draft_order rm = []) then None
      else getCoachIdForPick (nextOverallPick v + 1) (Room.draft_order rm)
  | None => None
  end.

Definition isMyTurn (v : View) : bool :=
  match coach v, onTheClockCoachId v with
  | Some c, Some cid =>
      if decide (Coach.id c = EmptyString ∨ cid = EmptyString) then false
      else bool_decide (Coach.id c = cid)
  | _, _ => false
  end.

(** ** The player pool (page.tsx, lines 338-353) *)

Fixpoint starts_with (s q : string) : bool :=
  match q, s with
  | EmptyString, _ => true
  | String c q', String d s' => bool_decide (c = d) && starts_with s' q'
  | String _ _, EmptyString => false
  end.

(** [s.includes(q)]: [q] occurs in [s] as a substring. *)
Fixpoint includes (s q : string) : bool :=
  starts_with s q
  || match s with
     | EmptyString => false
     | String _ s' => includes s' q
     end.

Section PlayerPool.
(** [String.prototype.toLowerCase] and [String.prototype.trim] are built-ins
    of the runtime; the pool is defined for any pair of such functions. *)
Variable toLowerCase : string → string.
Variable trim : string → string.

Definition matches_search (q : string) (p : Player.t) : bool :=
  if decide (q = EmptyString) then true
  else includes (toLowerCase (Player.player_name p)) q
       || includes (toLowerCase (Player.nfl_team p)) q
       || includes (toLowerCase (Player.position p)) q.

Definition availablePlayers (v : View) : list Player.t :=
  let q := toLowerCase (trim (search v)) in
  filter (λ p, matches_search q p = true)
    (filter (λ p, posFilter v = "ALL" ∨ Player.position p = posFilter v)
       (filter (λ p, Player.id p ∉ draftedPlayerIds v)
          (* Remove Kickers & DST completely *)
          (filter (λ p, Player.position p ∉ ["K"; "DST"]) (players v)))).
End PlayerPool.

(** The two built-ins on 7-bit text, for running the pool on examples. *)
Definition ascii_lower (c : ascii) : ascii :=
  let n := nat_of_ascii c in
  if (65 <=? n)%nat && (n <=? 90)%nat then ascii_of_nat (n + 32) else c.

Fixpoint ascii_toLowerCase (s : string) : string :=
  match s with
  | EmptyString => EmptyString
  | String c s' => String (ascii_lower c) (ascii_toLowerCase s')
  end.

Fixpoint drop_spaces (s : string) : string :=
  match s with
  | String " "%char s' => drop_spaces s'
  | _ => s
  end.

Definition ascii_trim (s : string) : string :=
  String.rev (drop_spaces (String.rev (drop_spaces s))).

(** ** Actions (page.tsx, lines 391-485) *)

(** [draftPlayer] and [undoLastPick] return the outcome, the session state
    after the call and the database after the call.  The [busyPlayerId] flag
    only drives the rendering; an exception caught by [catch] shows its
    message like a request error and is covered by the errors of [Env].
    A [draft_order] that is missing reads as the empty order. *)
Definition draftPlayer (e : Env) (player : Player.t) (v : View) (db : Db)
  : Outcome * View * Db :=
  match room v, coach v with
  | Some rm, Some c =>
      if decide (Room.draft_order rm = []) then (InvalidConfiguration, v, db)
      else
        let expected :=
          getCoachIdForPick (Z.of_nat (length (picks v)) + 1) (Room.draft_order rm) in
        if decide (expected ≠ Some (Coach.id c)) then (OutOfTurn, v, db)
        (* 1 NFL team per coach rule *)
        else if decide (Player.nfl_team player ∈ myTeamsUsed v) then (TeamConflict, v, db)
        (* Prevent accidental duplicate in UI *)
        else if decide (Player.id player ∈ draftedPlayerIds v) then (AlreadyDrafted, v, db)
        else
          let overallPickNumber := Z.of_nat (length (picks v)) + 1 in
          match insert_error e with
          | Some msg => (DbError msg, v, db)
          | None =>
              let db' :=
                insert_pick
                  (PickRec.mk (new_id e) (Room.id rm) (Coach.id c)
                              overallPickNumber (Player.id player) (now e)) db in
              (Committed, loadPicks e (Room.id rm) v db', db')
          end
  | _, _ => (NotLoaded, v, db)
  end.

Definition undoLastPick (e : Env) (v : View) (db : Db) : Outcome * View * Db :=
  match room v with
  | None => (NotLoaded, v, db)
  | Some rm =>
      if decide (Room.id rm = EmptyString) then (NotLoaded, v, db)
      else if negb (isCommissioner v) then (Forbidden, v, db)
      else if negb (confirm_ok e) then (Declined, v, db)
      else
        match latest_error e with
        | Some msg => (DbError msg, v, db)
        | None =>
            match latest_pick (Room.id rm) db with
            | None => (EmptyLedger, v, db)
            | Some latest =>
                match delete_error e with
                | Some msg => (DbError msg, v, db)
                | None =>
                    let db' := delete_pick (PickRec.id latest) db in
                    (Undone, loadPicks e (Room.id rm) v db', db')
                end
            end
        end
  end.

(** ** Drafts as sequences of successful actions

    Every browser session acts on the picks it loaded at some earlier moment.
    A history lists the states of the database, newest first. *)

(** The room has no pick yet; [id] is the primary key of [picks] and of
    [players]. *)
Definition draft_open (rm : Room.t) (db : Db) : Prop :=
  ledger (Room.id rm) db = []
  ∧ NoDup (PickRec.id <$> picks_tbl db)
  ∧ NoDup (Player.id <$> players_tbl db).

(** The session shows room [rm] and the picks it loaded when the database
    was [seen]. *)
Definition loaded_from (rm : Room.t) (v : View) (seen : Db) : Prop :=
  room v = Some rm ∧ picks v = select_picks (Room.id rm) seen.

(** Which earlier state a session may still be showing when it acts. *)
Definition snapshot_rule : Type := Db → Db → list Db → Prop.

(** Any state of the draft so far: reloads may lag behind. *)
Definition any_snapshot : snapshot_rule := λ seen db past, seen ∈ db :: past.

(** The current state: the session reloaded just before it acts. *)
Definition fresh_snapshot : snapshot_rule := λ seen db past, seen = db.

Inductive history (rule : snapshot_rule) (rm : Room.t) : list Db → Prop :=
| history_open db :
    draft_open rm db → history rule rm [db]
| history_draft e player v seen db past v' db' :
    history rule rm (db :: past) →
    rule seen db past → loaded_from rm v seen →
    player ∈ players_tbl db →
    new_id e ∉ (PickRec.id <$> picks_tbl db) →
    draftPlayer e player v db = (Committed, v', db') →
    history rule rm (db' :: db :: past)
| history_undo e v seen db past v' db' :
    history rule rm (db :: past) →
    rule seen db past → loaded_from rm v seen →
    undoLastPick e v db = (Undone, v', db') →
    history rule rm (db' :: db :: past).

(** The affiliation of a stored pick: the NFL team of its player. *)
Definition affiliation (db : Db) (r : PickRec.t) : option string :=
  Player.nfl_team <$> find_player db (PickRec.player_id r).

(** The non-empty affiliations on the roster of coach [cid]. *)
Definition teams_of (db : Db) (cid : string) (l : list PickRec.t) : list string :=
  filter (λ t, t ≠ EmptyString)
    (omap (affiliation db) (filter (λ r, PickRec.coach_id r = cid) l)).

(** What holds of the database of room [rm] while every session reloads
    before it acts. *)
Record consistent (rm : Room.t) (db : Db) : Prop := mkConsistent {
  pick_ids_unique : NoDup (PickRec.id <$> picks_tbl db);
  player_ids_unique : NoDup (Player.id <$> players_tbl db);
  rounds_contiguous :
    PickRec.round <$> ledger (Room.id rm) db
    = Z.of_nat <$> seq 1 (length (ledger (Room.id rm) db));
  players_drafted_once : NoDup (PickRec.player_id <$> ledger (Room.id rm) db);
  one_per_team : ∀ cid, NoDup (teams_of db cid (ledger (Room.id rm) db)) }.

(** ** Races

    Every submission of a race runs [draftPlayer] on the view it captured
    before the race; the database serves the inserts one after the other. *)
Fixpoint race (subs : list (Env * Player.t * View)) (db : Db) : list Outcome * Db :=
  match subs with
  | [] => ([], db)
  | (e, player, v) :: rest =>
      let '(o, _, db') := draftPlayer e player v db in
      let '(os, db'') := race rest db' in
      (o :: os, db'')
  end.

Definition commits (os : list Outcome) : nat :=
  length (filter (λ o, o = Committed) os).

Definition out_of_turns (os : list Outcome) : nat :=
  length (filter (λ o, o = OutOfTurn) os).

(** The coach a submission comes from. *)
Definition submitter (s : Env * Player.t * View) : option string :=
  Coach.id <$> coach s.2.

(** ** The Draft button (page.tsx, lines 617-619)

    [disabled = !isMyTurn || teamUsed || busyPlayerId === p.id], where
    [busyPlayerId] is the player of the submission in flight, if any. *)
Definition draftDisabled (busyPlayerId : option string) (v : View) (p : Player.t)
  : bool :=
  negb (isMyTurn v)
  || bool_decide (Player.nfl_team p ∈ myTeamsUsed v)
  || bool_decide (busyPlayerId = Some (Player.id p)).

Global Instance reversed_round_dec r : Decision (reversed_round r).
Proof. unfold reversed_round. apply _. Defined.

(** ** Class names (page.tsx, lines 44-46)

    [cx(...classes)] is [classes.filter(Boolean).join(" ")]; an argument that
    is [false], [undefined] or [null] is [None] here, and the empty string is
    falsy as well. *)
Definition cx (classes : list (option string)) : string :=
  String.concat " " (filter (λ s, s ≠ EmptyString) (omap id classes)).

(** ** The draft board (page.tsx, lines 684-720)

    One entry per rendered [FragmentRow].  The label [roundLabel] keeps the
    two numbers of [`${roundNumber}.${pickInRound}`]; [None] is the dash. *)
Record BoardRow := mkBoardRow {
  roundChanged : bool;
  roundNumber : Z;
  rowClassName : string;
  overallPick : Z;
  roundLabel : option (Z * Z);
  coachName : string;
  playerText : string }.

Definition boardRow (v : View) (prev : option PickRow.t) (i : nat) (pk : PickRow.t)
  : BoardRow :=
  let overallPick := PickRow.round pk in
  let slot :=
    if decide (nCoaches v = 0) then (0, 0)
    else roundAndPickInRound overallPick (nCoaches v) in
  let prevRound :=
    match prev with
    | Some p =>
        if decide (nCoaches v = 0) then None
        else Some (roundAndPickInRound (PickRow.round p) (nCoaches v)).1
    | None => None
    end in
  let roundChanged :=
    if decide (nCoaches v = 0) then bool_decide (i = 0%nat)
    else bool_decide (prevRound ≠ Some slot.1) in
  (* Alternating round shading *)
  let roundTint :=
    if decide (js_rem slot.1 2 = 0) then "bg-white/[0.03]" else "bg-transparent" in
  let isMine := bool_decide (Some (PickRow.coach_id pk) = Coach.id <$> coach v) in
  mkBoardRow roundChanged slot.1
    (cx [Some "border-b border-white/5 transition"; Some roundTint;
         if isMine then Some "bg-sky-500/10" else None])
    overallPick
    (if decide (nCoaches v = 0) then None else Some slot)
    (default "—" (PickCoach.coach_name <$> PickRow.coach pk))
    (match PickRow.player pk with
     | Some pl =>
         PickPlayer.player_name pl +:+ " (" +:+ PickPlayer.nfl_team pl +:+ " "
         +:+ PickPlayer.position pl +:+ ")"
     | None => "—"
     end).

(** [[...picks].reverse().map((pk, i, reversed) => ...)], with
    [prev = reversed[i - 1]]. *)
Definition draftBoard (v : View) : list BoardRow :=
  let reversed := reverse (picks v) in
  imap (λ i pk,
          boardRow v (match i with O => None | S j => reversed !! j end) i pk)
       reversed.

(** ** Rosters and standings (rosters/page.tsx, standings/standings-client.tsx)

    Points are JavaScript numbers with fractions.  Their type and the
    operations the pages use on them are parameters: [zero] is [0], [add] is
    [+], [sub] is [-], [truthy d] says that [d] is neither zero nor NaN,
    [positive d] that [d > 0]; [localeCompare] is the built-in. *)

Module RosterRow.
Record t {num : Type} := mk {
  room_id : string; coach_id : string; coach_name : string;
  player_id : string; player_name : string; nfl_team : string;
  position : string; total_points : num; eliminated : bool }.
Arguments t : clear implicits.
Arguments mk {num}.
End RosterRow.

(** An entry of the [Map] built by [grouped]. *)
Module TeamEntry.
Record t {num : Type} := mk {
  coach_name : string; players : list (RosterRow.t num); total : num }.
Arguments t : clear implicits.
Arguments mk {num}.
End TeamEntry.

(** An element of the list [grouped] returns. *)
Module Team.
Record t {num : Type} := mk {
  coach_id : string; coach_name : string; total : num;
  players : list (RosterRow.t num) }.
Arguments t : clear implicits.
Arguments mk {num}.
End Team.

(** The rows of the standings page, its [Map] entries and its result. *)
Module PointsRow.
Record t {num : Type} := mk {
  coach_id : string; coach_name : string; total_points : num }.
Arguments t : clear implicits.
Arguments mk {num}.
End PointsRow.

Module TotalEntry.
Record t {num : Type} := mk { coach_name : string; total : num }.
Arguments t : clear implicits.
Arguments mk {num}.
End TotalEntry.

Module StandingsRow.
Record t {num : Type} := mk {
  coach_id : string; coach_name : string; total_points : num; rank : Z }.
Arguments t : clear implicits.
Arguments mk {num}.
End StandingsRow.

(** A [Map] keeps its keys in insertion order: an association list.
    [if (!map.has(key)) map.set(key, init); update(map.get(key))]. *)
Definition upsert {V} (key : string) (init : V) (update : V → V)
    (m : list (string * V)) : list (string * V) :=
  let m1 := if decide (key ∈ m.*1) then m else m ++ [(key, init)] in
  (λ kv, if decide (kv.1 = key) then (kv.1, update kv.2) else kv) <$> m1.

Section Scores.
Context {num : Type}.
Variables (zero : num) (add sub : num → num → num).
Variables (truthy positive : num → bool).
Variable localeCompare : string → string → num.

(** [a || b] on numbers. *)
Definition or_else (a b : num) : num := if truthy a then a else b.

(** [arr.sort(cmp)] puts [a] before [b] when [cmp(a, b)] is not positive,
    and keeps the order of elements that compare equal. *)
Definition sorts_before {A} (cmp : A → A → num) (a b : A) : Prop :=
  positive (cmp a b) = false.

Global Instance sorts_before_dec {A} (cmp : A → A → num) : RelDecision (sorts_before cmp).
Proof. unfold sorts_before. intros a b. apply _. Defined.

Definition jsSort {A} (cmp : A → A → num) (l : list A) : list A :=
  stable_sort (sorts_before cmp) l.

(** [b.total_points - a.total_points || a.player_name.localeCompare(b.player_name)] *)
Definition by_points_then_player (a b : RosterRow.t num) : num :=
  or_else (sub (RosterRow.total_points b) (RosterRow.total_points a))
          (localeCompare (RosterRow.player_name a) (RosterRow.player_name b)).

(** [b.total - a.total || a.coach_name.localeCompare(b.coach_name)] *)
Definition by_total_then_coach (a b : Team.t num) : num :=
  or_else (sub (Team.total b) (Team.total a))
          (localeCompare (Team.coach_name a) (Team.coach_name b)).

(** The body of the loop of [grouped] (rosters/page.tsx, lines 142-148). *)
Definition add_roster_row (m : list (string * TeamEntry.t num)) (r : RosterRow.t num)
  : list (string * TeamEntry.t num) :=
  upsert (RosterRow.coach_id r)
    (TeamEntry.mk (RosterRow.coach_name r) [] zero)
    (λ entry,
       TeamEntry.mk (TeamEntry.coach_name entry)
         (TeamEntry.players entry ++ [r])
         (add (TeamEntry.total entry) (RosterRow.total_points r)))
    m.

(** [grouped] (rosters/page.tsx, lines 140-161). *)
Definition grouped (rows : list (RosterRow.t num)) : list (Team.t num) :=
  let map := foldl add_roster_row [] rows in
  let list :=
    (λ kv, Team.mk kv.1 (TeamEntry.coach_name kv.2) (TeamEntry.total kv.2)
             (jsSort by_points_then_player (TeamEntry.players kv.2))) <$> map in
  (* sort teams by total points desc *)
  jsSort by_total_then_coach list.

(** [b.total_points - a.total_points || a.coach_name.localeCompare(b.coach_name)] *)
Definition by_points_then_coach (a b : StandingsRow.t num) : num :=
  or_else (sub (StandingsRow.total_points b) (StandingsRow.total_points a))
          (localeCompare (StandingsRow.coach_name a) (StandingsRow.coach_name b)).

(** The body of the loop of [standings]; [Number(r.total_points ?? 0)] is
    [r.total_points] for a number. *)
Definition add_points_row (m : list (string * TotalEntry.t num)) (r : PointsRow.t num)
  : list (string * TotalEntry.t num) :=
  upsert (PointsRow.coach_id r)
    (TotalEntry.mk (PointsRow.coach_name r) zero)
    (λ entry,
       TotalEntry.mk (TotalEntry.coach_name entry)
         (add (TotalEntry.total entry) (PointsRow.total_points r)))
    m.

(** [standings] (standings/standings-client.tsx, lines 346-368). *)
Definition standings (rows : list (PointsRow.t num)) : list (StandingsRow.t num) :=
  let map := foldl add_points_row [] rows in
  let list :=
    (λ kv, StandingsRow.mk kv.1 (TotalEntry.coach_name kv.2) (TotalEntry.total kv.2) 0)
      <$> map in
  let sorted := jsSort by_points_then_coach list in
  take 12
    (imap (λ idx r,
             StandingsRow.mk (StandingsRow.coach_id r) (StandingsRow.coach_name r)
               (StandingsRow.total_points r) (Z.of_nat idx + 1))
          sorted).

(** The points of some rows, added up in row order from [0] (the way both
    loops add them). *)
Definition roster_points (l : list (RosterRow.t num)) : num :=
  foldl (λ acc r, add acc (RosterRow.total_points r)) zero l.

Definition coach_points (l : list (PointsRow.t num)) : num :=
  foldl (λ acc r, add acc (PointsRow.total_points r)) zero l.
End Scores.

(** [tierRowClass] (standings/standings-client.tsx, lines 227-232):
    1-4 green, 5-8 yellow, 9-12 red. *)
Definition tierRowClass (rank : Z) : string :=
  if decide (1 ≤ rank ∧ rank ≤ 4) then "bg-emerald-500/10 ring-1 ring-emerald-400/15"
  else if decide (5 ≤ rank ∧ rank ≤ 8) then "bg-amber-500/10 ring-1 ring-amber-400/15"
  else "bg-red-500/10 ring-1 ring-red-400/15".

(** Whole-number points, and strings compared by code unit, for the
    examples. *)
Module ExampleScores.
Definition truthy (d : Z) : bool := bool_decide (d ≠ 0).
Definition positive (d : Z) : bool := bool_decide (0 < d).
Definition localeCompare (a b : string) : Z :=
  if decide (a = b) then 0 else if decide (String.le a b) then -1 else 1.

Definition points : list (PointsRow.t Z) :=
  [ PointsRow.mk "A" "Rowland" 10; PointsRow.mk "B" "Blake" 25;
    PointsRow.mk "A" "Rowland" 7 ].

Definition standings0 : list (StandingsRow.t Z) :=
  standings 0 Z.add Z.sub truthy positive localeCompare points.

Definition mahomes : RosterRow.t Z :=
  RosterRow.mk "room-1" "A" "Rowland" "p1" "Patrick Mahomes" "KC" "QB" 10 false.
Definition diggs : RosterRow.t Z :=
  RosterRow.mk "room-1" "B" "Blake" "p3" "Stefon Diggs" "BUF" "WR" 25 false.
Definition aubrey : RosterRow.t Z :=
  RosterRow.mk "room-1" "A" "Rowland" "p4" "Brandon Aubrey" "DAL" "K" 12 false.

Definition roster : list (RosterRow.t Z) := [mahomes; diggs; aubrey].

Definition grouped0 : list (Team.t Z) :=
  grouped 0 Z.add Z.sub truthy positive localeCompare roster.
End ExampleScores.

(** ** A small room used in the examples *)

Module Example.
Definition room0 : Room.t := Room.mk "room-1" "Triple" ["A"; "B"].
Definition coachA : Coach.t := Coach.mk "A" "Rowland".
Definition coachB : Coach.t := Coach.mk "B" "Blake".
Definition p1 : Player.t := Player.mk "p1" "room-1" "Patrick Mahomes" "KC" "QB" None.
Definition p2 : Player.t := Player.mk "p2" "room-1" "Isiah Pacheco" "KC" "RB" None.
Definition p3 : Player.t := Player.mk "p3" "room-1" "Stefon Diggs" "BUF" "WR" None.
Definition p4 : Player.t := Player.mk "p4" "room-1" "Brandon Aubrey" "DAL" "K" None.

(** The draft opens: a catalog, two coaches, no pick. *)
Definition db0 : Db := mkDb [] [p1; p2; p3; p4] [coachA; coachB].

(** Every request succeeds; the inserted row gets id [i] and time [t]. *)
Definition env (i : string) (t : Z) : Env := mkEnv None i t None None None true.

(** The same, but the database refuses the insert with message [msg]. *)
Definition env_refusing (msg i : string) (t : Z) : Env :=
  mkEnv (Some msg) i t None None None true.

(** The session of coach [c] after it loaded the picks of [db]. *)
Definition session (c : Coach.t) (db : Db) : View :=
  mkView (Some room0) (Some c) (players_tbl db) (select_picks "room-1" db)
         EmptyString "ALL".

(** Coach A drafts [p1] as pick 1. *)
Definition db1 : Db := (draftPlayer (env "k1" 1) p1 (session coachA db0) db0).2.

(** Coach B, who saw pick 1, drafts [p3] as pick 2. *)
Definition db2 : Db := (draftPlayer (env "k2" 2) p3 (session coachB db1) db1).2.

(** A second session of coach A that still shows the open draft drafts
    [p3] after pick 1 was stored. *)
Definition db1_stale : Db := (draftPlayer (env "k2" 2) p3 (session coachA db0) db1).2.

(** The same stale session drafts [p1] once more. *)
Definition db1_again : Db := (draftPlayer (env "k2" 2) p1 (session coachA db0) db1).2.

(** The same stale session drafts [p2], a second player of KC. *)
Definition db1_team : Db := (draftPlayer (env "k2" 2) p2 (session coachA db0) db1).2.
End Example.

(** Decide a closed, decidable proposition by evaluation. *)
Ltac by_compute := apply (bool_decide_unpack _); vm_compute; exact I.

(** ** Facts about the primitives *)

Lemma ceil_div_spec (p n r : Z) :
  0 < n → (r - 1) * n < p ≤ r * n → ceil_div p n = r.
Proof.
  intros Hn [Hlo Hhi]. unfold ceil_div.
  assert ((- p) / n = - r) as ->; [|lia].
  symmetry. apply (Z.div_unique_pos (- p) n (- r) (r * n - p)); lia.
Qed.

Lemma js_rem_nonneg (a n : Z) : 0 ≤ a → 0 < n → js_rem a n = a `mod` n.
Proof. intros. unfold js_rem. apply Z.rem_mod_nonneg; lia. Qed.

Lemma js_rem_2_odd (r : Z) : 0 ≤ r → js_rem r 2 = 1 ↔ Z.odd r = true.
Proof.
  intros Hr. rewrite js_rem_nonneg by lia.
  rewrite Zmod_odd. destruct (Z.odd r); split; (done || lia).
Qed.

Lemma js_index_lookup {A} (arr : list A) (i : Z) :
  0 ≤ i → js_index arr i = arr !! Z.to_nat i.
Proof. intros. unfold js_index. by rewrite decide_True. Qed.

Lemma isReverse_reversed (r : Z) :
  0 ≤ r →
  (bool_decide (r = 2) || bool_decide (r = 3)
   || (bool_decide (5 ≤ r) && bool_decide (js_rem r 2 = 1))) = true
  ↔ reversed_round r.
Proof.
  intros Hr. unfold reversed_round.
  rewrite !orb_true_iff, andb_true_iff, !bool_decide_eq_true.
  rewrite js_rem_2_odd by done. tauto.
Qed.

Lemma round_positive (p n r : Z) : 1 ≤ n → 1 ≤ p → (r - 1) * n < p ≤ r * n → 1 ≤ r.
Proof. intros Hn Hp [_ Hhi]. nia. Qed.

(** ** The Draft Order Resolver *)

Lemma getCoachIdForPick_index (order : list string) (p r : Z) :
  let n := Z.of_nat (length order) in
  1 ≤ n → 1 ≤ p → (r - 1) * n < p ≤ r * n →
  getCoachIdForPick p order =
    order !! Z.to_nat
      (if bool_decide (r = 2) || bool_decide (r = 3)
          || (bool_decide (5 ≤ r) && bool_decide (js_rem r 2 = 1))
       then n - 1 - (p - 1) `mod` n else (p - 1) `mod` n).
Proof.
  intros n Hn Hp Hr. unfold getCoachIdForPick. fold n.
  rewrite decide_False by lia.
  rewrite (ceil_div_spec p n r) by (done || lia).
  rewrite (js_rem_nonneg (p - 1) n) by lia.
  pose proof (Z.mod_pos_bound (p - 1) n ltac:(lia)) as Hm.
  apply js_index_lookup. case_match; lia.
Qed.

(** C1. For every draft order of length N >= 1 and every pick number p >= 1
    the resolver returns [order[index]], where the round is the r with
    (r - 1) * N < p <= r * N (that is, ceil (p / N)), the position in the
    round is (p - 1) mod N, and the index is mirrored exactly in rounds 2, 3
    and the odd rounds from 5 on; the index is inside the order, so a coach
    is returned.  For four coaches the first twenty picks are
    A,B,C,D  D,C,B,A  D,C,B,A  A,B,C,D  D,C,B,A. *)
Theorem getCoachIdForPick_spec :
  (∀ (order : list string) (p r : Z),
     let n := Z.of_nat (length order) in
     let indexInRound0 := (p - 1) `mod` n in
     1 ≤ n → 1 ≤ p → (r - 1) * n < p ≤ r * n →
     is_Some (getCoachIdForPick p order)
     ∧ (reversed_round r →
        getCoachIdForPick p order = order !! Z.to_nat (n - 1 - indexInRound0))
     ∧ (¬ reversed_round r →
        getCoachIdForPick p order = order !! Z.to_nat indexInRound0))
  ∧ (∀ A B C D : string,
       (λ p, getCoachIdForPick p [A; B; C; D])
         <$> [1; 2; 3; 4; 5; 6; 7; 8; 9; 10; 11; 12; 13; 14; 15; 16; 17; 18; 19; 20]
       = Some <$> [A; B; C; D; D; C; B; A; D; C; B; A; A; B; C; D; D; C; B; A]).
Proof.
  split; [|done].
  intros order p r n i0 Hn Hp Hr.
  pose proof (round_positive p n r Hn Hp Hr) as Hr1.
  pose proof (Z.mod_pos_bound (p - 1) n ltac:(lia)) as Hm. fold i0 in Hm.
  rewrite (getCoachIdForPick_index order p r) by done. fold n i0.
  pose proof (isReverse_reversed r ltac:(lia)) as Hrev.
  destruct (bool_decide (r = 2) || bool_decide (r = 3)
            || (bool_decide (5 ≤ r) && bool_decide (js_rem r 2 = 1))) eqn:Hb.
  - split_and!.
    + apply lookup_lt_is_Some. lia.
    + done.
    + intros Hnot. destruct Hnot. by apply Hrev.
  - split_and!.
    + apply lookup_lt_is_Some. lia.
    + intros Hyes. apply Hrev in Hyes. done.
    + done.
Qed.

Lemma getCoachIdForPick_spec_witness :
  getCoachIdForPick 5 ["A"; "B"; "C"] = Some "B"
  ∧ getCoachIdForPick 7 ["A"; "B"; "C"] = Some "C".
Proof.
  split.
  - destruct (proj1 getCoachIdForPick_spec ["A"; "B"; "C"] 5 2) as (_ & Hrev & _);
      [simpl; lia ..|].
    rewrite Hrev; [reflexivity|]. left. reflexivity.
  - destruct (proj1 getCoachIdForPick_spec ["A"; "B"; "C"] 7 3) as (_ & Hrev & _);
      [simpl; lia ..|].
    rewrite Hrev; [reflexivity|]. right. left. reflexivity.
Defined.

Lemma ceil_div_bounds (p n : Z) :
  0 < n → (ceil_div p n - 1) * n < p ≤ ceil_div p n * n.
Proof.
  intros Hn. unfold ceil_div.
  pose proof (Z.div_mod (- p) n ltac:(lia)) as Hdm.
  pose proof (Z.mod_pos_bound (- p) n Hn) as Hm.
  nia.
Qed.

Lemma getCoachIdForPick_is_Some (order : list string) (p : Z) :
  order ≠ [] → 1 ≤ p → is_Some (getCoachIdForPick p order).
Proof.
  intros Hne Hp.
  assert (1 ≤ Z.of_nat (length order)) as Hn by (destruct order; simpl in *; [done|lia]).
  rewrite (getCoachIdForPick_index order p (ceil_div p (Z.of_nat (length order))))
    by (done || apply ceil_div_bounds; lia).
  pose proof (Z.mod_pos_bound (p - 1) (Z.of_nat (length order)) ltac:(lia)).
  apply lookup_lt_is_Some. case_match; lia.
Qed.

(** ** The pick path *)

Lemma draftPlayer_not_loaded e player v db :
  room v = None ∨ coach v = None → draftPlayer e player v db = (NotLoaded, v, db).
Proof. unfold draftPlayer. intros [-> | ->]; [done|]. by destruct (room v). Qed.

Lemma draftPlayer_no_order e player v db rm c :
  room v = Some rm → coach v = Some c → Room.draft_order rm = [] →
  draftPlayer e player v db = (InvalidConfiguration, v, db).
Proof. intros Hr Hc Ho. unfold draftPlayer. rewrite Hr, Hc. by rewrite decide_True. Qed.

Lemma draftPlayer_out_of_turn e player v db rm c :
  room v = Some rm → coach v = Some c → Room.draft_order rm ≠ [] →
  getCoachIdForPick (Z.of_nat (length (picks v)) + 1) (Room.draft_order rm)
    ≠ Some (Coach.id c) →
  draftPlayer e player v db = (OutOfTurn, v, db).
Proof.
  intros Hr Hc Ho Hx. unfold draftPlayer. rewrite Hr, Hc.
  rewrite decide_False by done. by rewrite decide_True.
Qed.

Lemma draftPlayer_team_conflict e player v db rm c :
  room v = Some rm → coach v = Some c → Room.draft_order rm ≠ [] →
  getCoachIdForPick (Z.of_nat (length (picks v)) + 1) (Room.draft_order rm)
    = Some (Coach.id c) →
  Player.nfl_team player ∈ myTeamsUsed v →
  draftPlayer e player v db = (TeamConflict, v, db).
Proof.
  intros Hr Hc Ho Hx Ht. unfold draftPlayer. rewrite Hr, Hc.
  rewrite decide_False by done. rewrite decide_False by auto. by rewrite decide_True.
Qed.

Lemma draftPlayer_already_drafted e player v db rm c :
  room v = Some rm → coach v = Some c → Room.draft_order rm ≠ [] →
  getCoachIdForPick (Z.of_nat (length (picks v)) + 1) (Room.draft_order rm)
    = Some (Coach.id c) →
  Player.nfl_team player ∉ myTeamsUsed v →
  Player.id player ∈ draftedPlayerIds v →
  draftPlayer e player v db = (AlreadyDrafted, v, db).
Proof.
  intros Hr Hc Ho Hx Ht Hd. unfold draftPlayer. rewrite Hr, Hc.
  rewrite decide_False by done. rewrite decide_False by auto.
  rewrite decide_False by done. by rewrite decide_True.
Qed.

Lemma draftPlayer_insert e player v db rm c :
  room v = Some rm → coach v = Some c → Room.draft_order rm ≠ [] →
  getCoachIdForPick (Z.of_nat (length (picks v)) + 1) (Room.draft_order rm)
    = Some (Coach.id c) →
  Player.nfl_team player ∉ myTeamsUsed v →
  Player.id player ∉ draftedPlayerIds v →
  draftPlayer e player v db =
    match insert_error e with
    | Some msg => (DbError msg, v, db)
    | None =>
        let db' :=
          insert_pick
            (PickRec.mk (new_id e) (Room.id rm) (Coach.id c)
               (Z.of_nat (length (picks v)) + 1) (Player.id player) (now e)) db in
        (Committed, loadPicks e (Room.id rm) v db', db')
    end.
Proof.
  intros Hr Hc Ho Hx Ht Hd. unfold draftPlayer. rewrite Hr, Hc.
  rewrite decide_False by done. rewrite decide_False by auto.
  rewrite decide_False by done. by rewrite decide_False.
Qed.

(** What a committed pick went through, and what it wrote. *)
Lemma draftPlayer_Committed_inv e player v db v' db' :
  draftPlayer e player v db = (Committed, v', db') →
  ∃ rm c,
    room v = Some rm ∧ coach v = Some c ∧ Room.draft_order rm ≠ []
    ∧ getCoachIdForPick (Z.of_nat (length (picks v)) + 1) (Room.draft_order rm)
        = Some (Coach.id c)
    ∧ (Player.nfl_team player ∉ myTeamsUsed v)
    ∧ (Player.id player ∉ draftedPlayerIds v)
    ∧ insert_error e = None
    ∧ db' = insert_pick
              (PickRec.mk (new_id e) (Room.id rm) (Coach.id c)
                 (Z.of_nat (length (picks v)) + 1) (Player.id player) (now e)) db.
Proof.
  unfold draftPlayer. intros H.
  destruct (room v) as [rm|]; [|done]. destruct (coach v) as [c|]; [|done].
  repeat case_decide; try done.
  destruct (insert_error e); [done|].
  exists rm, c. by simplify_eq.
Qed.

(** Every other outcome leaves the session and the database as they were. *)
Lemma draftPlayer_rejected e player v db :
  (draftPlayer e player v db).1.1 ≠ Committed →
  draftPlayer e player v db = ((draftPlayer e player v db).1.1, v, db).
Proof.
  unfold draftPlayer.
  destruct (room v); [|done]. destruct (coach v); [|done].
  repeat case_decide; try done.
  by destruct (insert_error e).
Qed.

(** ** The stable sort *)

Lemma sort_insert_Permutation {A} (R : relation A) `{!RelDecision R} (x : A)
    (l : list A) :
  sort_insert R x l ≡ₚ x :: l.
Proof.
  induction l as [|y l IH]; simpl; [done|].
  case_decide; [done|]. rewrite IH. apply Permutation_swap.
Qed.

Lemma stable_sort_Permutation {A} (R : relation A) `{!RelDecision R} (l : list A) :
  stable_sort R l ≡ₚ l.
Proof.
  induction l as [|x l IH]; simpl; [done|].
  by rewrite sort_insert_Permutation, IH.
Qed.

Lemma StronglySorted_sort_insert {A} (R : relation A) `{!RelDecision R}
    `{!Transitive R, !Total R} (x : A) (l : list A) :
  StronglySorted R l → StronglySorted R (sort_insert R x l).
Proof.
  induction 1 as [|y l Hs IH Hall]; simpl.
  - by repeat constructor.
  - case_decide as Hxy.
    + constructor; [by constructor|]. constructor; [done|].
      eapply Forall_impl; [exact Hall|]. intros z Hz. by trans y.
    + constructor; [done|]. rewrite sort_insert_Permutation.
      constructor; [|done]. by destruct (total R x y).
Qed.

Lemma StronglySorted_stable_sort {A} (R : relation A) `{!RelDecision R}
    `{!Transitive R, !Total R} (l : list A) :
  StronglySorted R (stable_sort R l).
Proof.
  induction l as [|x l IH]; simpl; [constructor|].
  by apply StronglySorted_sort_insert.
Qed.

(** The sort is stable: a list that is in order already, ties included, is
    left as it is. *)
Lemma stable_sort_sorted {A} (R : relation A) `{!RelDecision R} (l : list A) :
  StronglySorted R l → stable_sort R l = l.
Proof.
  induction 1 as [|x l Hs IH Hall]; simpl; [done|]. rewrite IH.
  destruct Hall as [|y l Hxy _]; simpl; [done|]. by rewrite decide_True.
Qed.

Lemma select_picks_Permutation roomId db :
  select_picks roomId db ≡ₚ join_pick db <$> ledger roomId db.
Proof. apply merge_sort_Permutation. Qed.

Lemma select_picks_length roomId db :
  length (select_picks roomId db) = length (ledger roomId db).
Proof. by rewrite select_picks_Permutation, length_fmap. Qed.

(** C2 (amended). With room, coach and draft order loaded, the pick path ends
    in OutOfTurn exactly when the coach is not the one the resolver names for
    pick number [picks.length + 1], where [picks] is the list the session has
    loaded; nothing is written in that case.  When the loaded list is the
    current ledger, that number is the ledger length plus one; the ledger
    itself is not read again before the insert. *)
Theorem draftPlayer_turn_check e player v db rm c :
  room v = Some rm → coach v = Some c → Room.draft_order rm ≠ [] →
  ((draftPlayer e player v db).1.1 = OutOfTurn
   ↔ getCoachIdForPick (Z.of_nat (length (picks v)) + 1) (Room.draft_order rm)
       ≠ Some (Coach.id c))
  ∧ ((draftPlayer e player v db).1.1 = OutOfTurn →
     draftPlayer e player v db = (OutOfTurn, v, db))
  ∧ (picks v = select_picks (Room.id rm) db →
     Z.of_nat (length (picks v)) + 1
     = Z.of_nat (length (ledger (Room.id rm) db)) + 1).
Proof.
  intros Hr Hc Ho. split_and!.
  - split.
    + intros Hout Hexp. revert Hout. unfold draftPlayer. rewrite Hr, Hc.
      rewrite decide_False by done. rewrite decide_False by auto.
      repeat case_decide; try done. by destruct (insert_error e).
    + intros Hexp. by rewrite (draftPlayer_out_of_turn e player v db rm c).
  - intros Hout. rewrite draftPlayer_rejected; by rewrite Hout.
  - intros ->. by rewrite select_picks_length.
Qed.

Lemma draftPlayer_turn_check_witness :
  draftPlayer (Example.env "k2" 2) Example.p3
    (Example.session Example.coachA Example.db1) Example.db1
  = (OutOfTurn, Example.session Example.coachA Example.db1, Example.db1).
Proof.
  apply (draftPlayer_turn_check (Example.env "k2" 2) Example.p3
           (Example.session Example.coachA Example.db1) Example.db1
           Example.room0 Example.coachA); [reflexivity|reflexivity|done|].
  vm_compute. reflexivity.
Defined.

(** C2 fails as stated: a session of coach A that has not reloaded since the
    draft opened passes the turn check although the ledger already holds
    pick 1 and pick 2 belongs to coach B.  The pick is committed when the
    database accepts the insert; when it refuses, the answer is the
    database's message, not OutOfTurn. *)
Lemma draftPlayer_turn_check_stale :
  getCoachIdForPick
    (Z.of_nat (length (ledger (Room.id Example.room0) Example.db1)) + 1)
    (Room.draft_order Example.room0) = Some (Coach.id Example.coachB)
  ∧ Coach.id Example.coachA ≠ Coach.id Example.coachB
  ∧ (draftPlayer (Example.env "k2" 2) Example.p3
       (Example.session Example.coachA Example.db0) Example.db1).1.1 = Committed
  ∧ (draftPlayer (Example.env_refusing "duplicate key" "k2" 2) Example.p3
       (Example.session Example.coachA Example.db0) Example.db1).1.1
    = DbError "duplicate key".
Proof. split_and!; [by vm_compute | done | by vm_compute | by vm_compute]. Qed.

(** C8 (amended). With room and coach loaded, the pick path checks in this
    order and stops at the first check that fails: InvalidConfiguration when
    no draft order is set, then OutOfTurn, then TeamConflict, then
    AlreadyDrafted; a submission that passes all four is handed to the
    database.  So when both the team rule and the duplicate rule are
    violated, the answer is TeamConflict. *)
Theorem draftPlayer_check_order e player v db rm c :
  room v = Some rm → coach v = Some c →
  let expected :=
    getCoachIdForPick (Z.of_nat (length (picks v)) + 1) (Room.draft_order rm) in
  let team_used := Player.nfl_team player ∈ myTeamsUsed v in
  let drafted := Player.id player ∈ draftedPlayerIds v in
  (Room.draft_order rm = [] →
   draftPlayer e player v db = (InvalidConfiguration, v, db))
  ∧ (Room.draft_order rm ≠ [] → expected ≠ Some (Coach.id c) →
     draftPlayer e player v db = (OutOfTurn, v, db))
  ∧ (Room.draft_order rm ≠ [] → expected = Some (Coach.id c) → team_used →
     draftPlayer e player v db = (TeamConflict, v, db))
  ∧ (Room.draft_order rm ≠ [] → expected = Some (Coach.id c) → ¬ team_used →
     drafted →
     draftPlayer e player v db = (AlreadyDrafted, v, db))
  ∧ (Room.draft_order rm ≠ [] → expected = Some (Coach.id c) → ¬ team_used →
     ¬ drafted →
     (draftPlayer e player v db).1.1 = Committed
     ∨ ∃ msg, insert_error e = Some msg
              ∧ draftPlayer e player v db = (DbError msg, v, db)).
Proof.
  intros Hr Hc expected team_used drafted. split_and!.
  - by apply (draftPlayer_no_order _ _ _ _ rm c).
  - by apply (draftPlayer_out_of_turn _ _ _ _ rm c).
  - by apply (draftPlayer_team_conflict _ _ _ _ rm c).
  - by apply (draftPlayer_already_drafted _ _ _ _ rm c).
  - intros Ho Hx Ht Hd. rewrite (draftPlayer_insert e player v db rm c) by done.
    destruct (insert_error e) as [msg|]; [right; by exists msg | by left].
Qed.

Lemma draftPlayer_check_order_witness :
  draftPlayer (Example.env "k3" 3) Example.p1
    (Example.session Example.coachB Example.db2) Example.db2
  = (AlreadyDrafted, Example.session Example.coachB Example.db2, Example.db2).
Proof.
  apply (draftPlayer_check_order (Example.env "k3" 3) Example.p1
           (Example.session Example.coachB Example.db2) Example.db2
           Example.room0 Example.coachB);
    [reflexivity | reflexivity | done | by vm_compute | by vm_compute | by vm_compute].
Defined.

(** C8 fails as stated: coach B, on the clock for pick 3, submits the player
    it drafted at pick 2.  The player is already drafted and its team is
    already on B's roster; the answer is TeamConflict, not AlreadyDrafted. *)
Lemma draftPlayer_check_order_both :
  let v := Example.session Example.coachB Example.db2 in
  Player.id Example.p3 ∈ draftedPlayerIds v
  ∧ Player.nfl_team Example.p3 ∈ myTeamsUsed v
  ∧ draftPlayer (Example.env "k3" 3) Example.p3 v Example.db2
    = (TeamConflict, v, Example.db2)
  ∧ (draftPlayer (Example.env "k3" 3) Example.p3 v Example.db2).1.1 ≠ AlreadyDrafted.
Proof. split_and!; by vm_compute. Qed.

(** C9. With an empty draft order the resolver returns no coach ([null]) for
    every pick number p >= 1, and the pick path, which reads the same order,
    stops with InvalidConfiguration and writes nothing.  With a non-empty
    order the resolver never returns [null] for such p, so [null] stands for
    the missing configuration only. *)
Theorem getCoachIdForPick_no_order (p : Z) (order : list string) :
  length order = 0%nat → 1 ≤ p →
  getCoachIdForPick p order = None
  ∧ (∀ e player v db rm c,
       room v = Some rm → coach v = Some c → Room.draft_order rm = order →
       draftPlayer e player v db = (InvalidConfiguration, v, db))
  ∧ (∀ order' : list string,
       length order' ≠ 0%nat → is_Some (getCoachIdForPick p order')).
Proof.
  intros Hlen Hp. apply nil_length_inv in Hlen as ->. split_and!.
  - done.
  - intros e player v db rm c Hr Hc Ho. by apply (draftPlayer_no_order _ _ _ _ rm c).
  - intros order' Hne. apply getCoachIdForPick_is_Some; [|done]. by intros ->.
Qed.

Lemma getCoachIdForPick_no_order_witness : getCoachIdForPick 1 [] = None.
Proof. apply (getCoachIdForPick_no_order 1 []); [reflexivity | lia]. Defined.

(** ** The player pool *)

(** C10. Whatever the players, the loaded picks, the search text and the
    position filter are, a player in the pool is one of the loaded players,
    is neither a kicker ("K") nor a defense ("DST"), and is not the player of
    any loaded pick. *)
Theorem availablePlayers_excludes (toLowerCase trim : string → string)
    (v : View) (p : Player.t) :
  p ∈ availablePlayers toLowerCase trim v →
  p ∈ players v
  ∧ Player.position p ≠ "K"
  ∧ Player.position p ≠ "DST"
  ∧ ∀ pick, pick ∈ picks v → PickRow.player_id pick ≠ Player.id p.
Proof.
  unfold availablePlayers. rewrite !list_elem_of_filter.
  intros (_ & _ & Hfree & Hpos & Hin).
  split_and!; [done | | |].
  - intros HK. apply Hpos. rewrite HK. set_solver.
  - intros HD. apply Hpos. rewrite HD. set_solver.
  - intros pick Hpick Heq. apply Hfree. unfold draftedPlayerIds.
    rewrite elem_of_list_to_set, <- Heq. by apply list_elem_of_fmap_2.
Qed.

Lemma availablePlayers_excludes_witness :
  availablePlayers ascii_toLowerCase ascii_trim
    (Example.session Example.coachB Example.db1) = [Example.p2; Example.p3]
  ∧ Player.position Example.p3 ≠ "K".
Proof.
  split; [by vm_compute|].
  apply (availablePlayers_excludes ascii_toLowerCase ascii_trim
           (Example.session Example.coachB Example.db1) Example.p3).
  vm_compute. set_solver.
Defined.

(** ** Undo *)

Global Instance newer_first_total : Total newer_first.
Proof. intros a b. unfold newer_first. lia. Qed.

Global Instance newer_first_trans : Transitive newer_first.
Proof. intros a b c. unfold newer_first. lia. Qed.

Lemma latest_pick_None roomId db :
  latest_pick roomId db = None ↔ ledger roomId db = [].
Proof.
  unfold latest_pick.
  pose proof (merge_sort_Permutation newer_first (ledger roomId db)) as Hp.
  split.
  - intros Hh. destruct (merge_sort newer_first (ledger roomId db)); [|done].
    by apply Permutation_nil_l in Hp.
  - intros Hl. rewrite Hl in Hp |- *. by apply Permutation_nil_r in Hp as ->.
Qed.

(** The latest pick is in the ledger and no pick has a larger number. *)
Lemma latest_pick_Some roomId db latest :
  latest_pick roomId db = Some latest →
  latest ∈ ledger roomId db
  ∧ ∀ r, r ∈ ledger roomId db → PickRec.round r ≤ PickRec.round latest.
Proof.
  unfold latest_pick. intros Hh.
  pose proof (merge_sort_Permutation newer_first (ledger roomId db)) as Hp.
  pose proof (StronglySorted_merge_sort newer_first (ledger roomId db)) as Hs.
  apply head_Some in Hh as [rest Hrest]. rewrite Hrest in Hp, Hs.
  split.
  - rewrite <- Hp. left.
  - intros r Hr. rewrite <- Hp in Hr.
    apply elem_of_cons in Hr as [-> | Hr]; [done|].
    apply StronglySorted_inv in Hs as [_ Hall].
    rewrite Forall_forall in Hall. specialize (Hall r Hr).
    unfold newer_first in Hall. lia.
Qed.

Lemma filter_comm {A} (P Q : A → Prop) `{!∀ x, Decision (P x)} `{!∀ x, Decision (Q x)}
    (l : list A) :
  filter P (filter Q l) = filter Q (filter P l).
Proof.
  induction l as [|x l IH]; [done|].
  rewrite !(filter_cons _ x l).
  destruct (decide (P x)), (decide (Q x));
    rewrite ?filter_cons_True, ?filter_cons_False by done; by rewrite ?IH.
Qed.

Lemma filter_all {A} (P : A → Prop) `{!∀ x, Decision (P x)} (l : list A) :
  Forall P l → filter P l = l.
Proof.
  induction 1 as [|x l Hx _ IH]; [done|]. by rewrite filter_cons_True, IH.
Qed.

Lemma ledger_delete_pick roomId i db :
  ledger roomId (delete_pick i db)
  = filter (λ r, PickRec.id r ≠ i) (ledger roomId db).
Proof. unfold ledger, delete_pick. simpl. apply filter_comm. Qed.

Lemma ledger_insert_pick roomId r db :
  ledger roomId (insert_pick r db)
  = ledger roomId db ++ (if decide (PickRec.room_id r = roomId) then [r] else []).
Proof.
  unfold ledger, insert_pick. simpl. by rewrite filter_app.
Qed.

Lemma ledger_sublist roomId db : ledger roomId db `sublist_of` picks_tbl db.
Proof. apply sublist_filter. Qed.

Lemma ledger_ids_NoDup roomId db :
  NoDup (PickRec.id <$> picks_tbl db) → NoDup (PickRec.id <$> ledger roomId db).
Proof. intros Hnd. eapply sublist_NoDup; [exact Hnd|]. apply fmap_sublist, ledger_sublist. Qed.

(** Deleting by primary key takes out the one row that carries the key. *)
Lemma filter_unique_id (l1 l2 : list PickRec.t) (x : PickRec.t) :
  NoDup (PickRec.id <$> l1 ++ x :: l2) →
  filter (λ r, PickRec.id r ≠ PickRec.id x) (l1 ++ x :: l2) = l1 ++ l2.
Proof.
  rewrite fmap_app, fmap_cons. intros Hnd.
  apply NoDup_app in Hnd as (_ & Hdisj & Hnd).
  apply NoDup_cons in Hnd as [Hx _].
  rewrite filter_app, filter_cons_False by (intros Hne; by apply Hne).
  rewrite !filter_all; [done | |].
  - apply Forall_forall. intros r Hr Heq. apply Hx. rewrite <- Heq.
    by apply list_elem_of_fmap_2.
  - apply Forall_forall. intros r Hr Heq.
    apply (Hdisj (PickRec.id r)); [by apply list_elem_of_fmap_2|].
    rewrite Heq. left.
Qed.

Lemma undoLastPick_removes e v db rm latest :
  room v = Some rm → Room.id rm ≠ EmptyString → isCommissioner v = true →
  confirm_ok e = true → latest_error e = None → delete_error e = None →
  latest_pick (Room.id rm) db = Some latest →
  undoLastPick e v db
  = (Undone, loadPicks e (Room.id rm) v (delete_pick (PickRec.id latest) db),
     delete_pick (PickRec.id latest) db).
Proof.
  intros Hr Hid Hc Hok He1 He2 Hl. unfold undoLastPick.
  rewrite Hr, decide_False, Hc, Hok, He1, Hl, He2 by done. done.
Qed.

Lemma undoLastPick_Undone_inv e v db v' db' :
  undoLastPick e v db = (Undone, v', db') →
  ∃ rm latest,
    room v = Some rm ∧ latest_pick (Room.id rm) db = Some latest
    ∧ db' = delete_pick (PickRec.id latest) db.
Proof.
  unfold undoLastPick. intros H.
  destruct (room v) as [rm|]; [|done].
  case_decide; [done|].
  destruct (isCommissioner v); [|done]. destruct (confirm_ok e); [|done].
  simpl in H. destruct (latest_error e); [done|].
  destruct (latest_pick (Room.id rm) db) as [latest|] eqn:Hl; [|done].
  destruct (delete_error e); [done|].
  exists rm, latest. by simplify_eq.
Qed.

Lemma NoDup_fmap_eq {A B} (f : A → B) (l : list A) (x y : A) :
  NoDup (f <$> l) → x ∈ l → y ∈ l → f x = f y → x = y.
Proof.
  induction l as [|z l IH]; [by intros _ ?%elem_of_nil|].
  rewrite fmap_cons, NoDup_cons, !elem_of_cons.
  intros [Hz Hnd] [-> | Hx] [-> | Hy] Hf; [done | | | by apply IH].
  - destruct Hz. rewrite Hf. by apply list_elem_of_fmap_2.
  - destruct Hz. rewrite <- Hf. by apply list_elem_of_fmap_2.
Qed.

Lemma ledger_room roomId db r : r ∈ ledger roomId db → PickRec.room_id r = roomId.
Proof. unfold ledger. rewrite list_elem_of_filter. by intros [? _]. Qed.

Lemma ledger_elem_of roomId db r : r ∈ ledger roomId db → r ∈ picks_tbl db.
Proof. unfold ledger. rewrite list_elem_of_filter. by intros [_ ?]. Qed.

(** Deleting a pick of one room leaves the ledgers of the other rooms alone. *)
Lemma ledger_delete_other roomId roomId' latest db :
  NoDup (PickRec.id <$> picks_tbl db) →
  latest ∈ ledger roomId db → roomId' ≠ roomId →
  ledger roomId' (delete_pick (PickRec.id latest) db) = ledger roomId' db.
Proof.
  intros Hnd Hl Hne. rewrite ledger_delete_pick. apply filter_all, Forall_forall.
  intros r Hr Heq. apply Hne.
  rewrite <- (ledger_room roomId' db r Hr), <- (ledger_room roomId db latest Hl).
  f_equal. eapply NoDup_fmap_eq; [exact Hnd | | | exact Heq]; by eapply ledger_elem_of.
Qed.

(** C7. In a room that is loaded, undo by anyone who is not the commissioner
    ends in Forbidden and leaves the database (so the ledger length) as it
    was.  For the commissioner who confirms, with the database answering the
    requests: an empty ledger gives EmptyLedger and no change; otherwise
    exactly one row leaves the ledger, a row whose pick number is the
    maximum, all other rows stay in place, and no other room or table is
    touched. *)
Theorem undoLastPick_discipline e v db rm :
  room v = Some rm → Room.id rm ≠ EmptyString →
  (isCommissioner v = false → undoLastPick e v db = (Forbidden, v, db))
  ∧ (isCommissioner v = true → confirm_ok e = true → latest_error e = None →
     (ledger (Room.id rm) db = [] → undoLastPick e v db = (EmptyLedger, v, db))
     ∧ (ledger (Room.id rm) db ≠ [] → delete_error e = None →
        NoDup (PickRec.id <$> picks_tbl db) →
        ∃ latest l1 l2 v' db',
          undoLastPick e v db = (Undone, v', db')
          ∧ ledger (Room.id rm) db = l1 ++ latest :: l2
          ∧ (∀ r, r ∈ ledger (Room.id rm) db → PickRec.round r ≤ PickRec.round latest)
          ∧ ledger (Room.id rm) db' = l1 ++ l2
          ∧ (∀ roomId', roomId' ≠ Room.id rm → ledger roomId' db' = ledger roomId' db)
          ∧ players_tbl db' = players_tbl db
          ∧ coaches_tbl db' = coaches_tbl db)).
Proof.
  intros Hr Hid. split.
  - intros Hc. unfold undoLastPick. by rewrite Hr, decide_False, Hc.
  - intros Hc Hok He1. split.
    + intros Hl. apply latest_pick_None in Hl.
      unfold undoLastPick. by rewrite Hr, decide_False, Hc, Hok, He1, Hl.
    + intros Hl He2 Hnd.
      destruct (latest_pick (Room.id rm) db) as [latest|] eqn:Hlatest;
        [|by apply latest_pick_None in Hlatest].
      destruct (latest_pick_Some _ _ _ Hlatest) as [Hin Hmax].
      destruct (list_elem_of_split _ _ Hin) as (l1 & l2 & Hsplit).
      exists latest, l1, l2. eexists _, _. split_and!.
      * by apply undoLastPick_removes.
      * done.
      * done.
      * rewrite ledger_delete_pick, Hsplit. apply filter_unique_id.
        rewrite <- Hsplit. by apply ledger_ids_NoDup.
      * intros roomId' Hne. by apply (ledger_delete_other (Room.id rm)).
      * done.
      * done.
Qed.

Lemma undoLastPick_discipline_witness :
  undoLastPick (Example.env "k3" 3)
    (Example.session Example.coachB Example.db2) Example.db2
  = (Forbidden, Example.session Example.coachB Example.db2, Example.db2)
  ∧ ∃ latest l1 l2 v' db',
      undoLastPick (Example.env "k3" 3)
        (Example.session Example.coachA Example.db2) Example.db2 = (Undone, v', db')
      ∧ ledger "room-1" Example.db2 = l1 ++ latest :: l2
      ∧ (∀ r, r ∈ ledger "room-1" Example.db2 → PickRec.round r ≤ PickRec.round latest)
      ∧ ledger "room-1" db' = l1 ++ l2
      ∧ (∀ roomId', roomId' ≠ "room-1" → ledger roomId' db' = ledger roomId' Example.db2)
      ∧ players_tbl db' = players_tbl Example.db2
      ∧ coaches_tbl db' = coaches_tbl Example.db2.
Proof.
  split.
  - apply (undoLastPick_discipline (Example.env "k3" 3)
             (Example.session Example.coachB Example.db2) Example.db2 Example.room0);
      [reflexivity | done | reflexivity].
  - apply (undoLastPick_discipline (Example.env "k3" 3)
             (Example.session Example.coachA Example.db2) Example.db2 Example.room0);
      [reflexivity | done | reflexivity | reflexivity | reflexivity
      | by vm_compute | reflexivity | apply (bool_decide_unpack _); by vm_compute].
Defined.

(** ** What a freshly loaded session sees *)

Lemma join_pick_player_id db r : PickRow.player_id (join_pick db r) = PickRec.player_id r.
Proof. done. Qed.

Lemma draftedPlayerIds_loaded rm v db pid :
  loaded_from rm v db →
  pid ∈ draftedPlayerIds v ↔ pid ∈ PickRec.player_id <$> ledger (Room.id rm) db.
Proof.
  intros [_ Hp]. unfold draftedPlayerIds. rewrite elem_of_list_to_set, Hp.
  rewrite select_picks_Permutation, <- list_fmap_compose.
  by apply elem_of_proper.
Qed.

Lemma find_player_Some db pid p :
  find_player db pid = Some p → Player.id p = pid ∧ p ∈ players_tbl db.
Proof.
  unfold find_player. intros H. apply fmap_Some in H as ([i q] & Hf & ->).
  apply list_find_Some in Hf as (Hl & Hq & _). split; [done|].
  by eapply list_elem_of_lookup_2.
Qed.

(** [id] is the primary key of [players]: looking a player up by its id
    returns that very row. *)
Lemma find_player_elem_of db p :
  NoDup (Player.id <$> players_tbl db) → p ∈ players_tbl db →
  find_player db (Player.id p) = Some p.
Proof.
  intros Hnd Hin. unfold find_player.
  destruct (list_find (λ q, Player.id q = Player.id p) (players_tbl db))
    as [[i q]|] eqn:Hf.
  - apply list_find_Some in Hf as (Hl & Hq & _). simpl. f_equal.
    eapply NoDup_fmap_eq; [exact Hnd | | done | done].
    by eapply list_elem_of_lookup_2.
  - apply list_find_None in Hf. rewrite Forall_forall in Hf. by destruct (Hf p Hin).
Qed.

Lemma find_coach_Some db cid c : find_coach db cid = Some c → Coach.id c = cid.
Proof.
  unfold find_coach. intros H. apply fmap_Some in H as ([i q] & Hf & ->).
  by apply list_find_Some in Hf as (_ & Hq & _).
Qed.

(** The embedded coach row carries the [coach_id] of the pick, so both arms
    of the test in [myPicks] compare the same id. *)
Lemma pick_is_mine_join db c r :
  pick_is_mine c (join_pick db r) ↔ PickRec.coach_id r = Coach.id c.
Proof.
  unfold pick_is_mine, join_pick. simpl.
  destruct (find_coach db (PickRec.coach_id r)) as [jc|] eqn:Hj; simpl; [|done].
  apply find_coach_Some in Hj. case_decide; [done|]. by rewrite Hj.
Qed.

Lemma join_pick_team db r :
  PickPlayer.nfl_team <$> PickRow.player (join_pick db r) = affiliation db r.
Proof. unfold affiliation, join_pick. simpl. by destruct (find_player db _). Qed.

Lemma elem_of_teams_of db cid l t :
  t ∈ teams_of db cid l
  ↔ t ≠ EmptyString ∧ ∃ r, r ∈ l ∧ PickRec.coach_id r = cid ∧ affiliation db r = Some t.
Proof.
  unfold teams_of. rewrite list_elem_of_filter, list_elem_of_omap.
  setoid_rewrite list_elem_of_filter.
  split.
  - intros (Hne & r & (Hc & Hr) & Ha). split; [done|]. by exists r.
  - intros (Hne & r & Hr & Hc & Ha). split; [done|]. by exists r.
Qed.

Lemma myTeamsUsed_loaded rm v db c t :
  loaded_from rm v db → coach v = Some c →
  t ∈ myTeamsUsed v ↔ t ∈ teams_of db (Coach.id c) (ledger (Room.id rm) db).
Proof.
  intros [_ Hp] Hc. rewrite elem_of_teams_of.
  unfold myTeamsUsed, myPicks. rewrite Hc, Hp.
  rewrite elem_of_list_to_set, list_elem_of_filter, list_elem_of_omap.
  setoid_rewrite stable_sort_Permutation.
  setoid_rewrite list_elem_of_filter.
  setoid_rewrite select_picks_Permutation.
  setoid_rewrite list_elem_of_fmap.
  split.
  - intros (Hne & p & (Hmine & r & -> & Hr) & Ht). split; [done|].
    exists r. rewrite join_pick_team in Ht. rewrite pick_is_mine_join in Hmine.
    split_and!; try done; [by eapply ledger_room | by eapply ledger_elem_of].
  - intros (Hne & r & Hr & Hcid & Ht). split; [done|].
    exists (join_pick db r). rewrite join_pick_team, pick_is_mine_join.
    split; [|done]. split; [done|]. exists r. split; [done|].
    by apply list_elem_of_filter.
Qed.

(** ** The ledger while every session reloads before it acts *)

Lemma teams_of_app db cid l1 l2 :
  teams_of db cid (l1 ++ l2) = teams_of db cid l1 ++ teams_of db cid l2.
Proof. unfold teams_of. by rewrite filter_app, omap_app, filter_app. Qed.

Lemma teams_of_singleton_NoDup db cid r : NoDup (teams_of db cid [r]).
Proof.
  unfold teams_of. rewrite (filter_cons _ r []).
  case_decide; [|apply NoDup_nil_2].
  rewrite filter_nil. simpl. destruct (affiliation db r) as [t|]; [|apply NoDup_nil_2].
  rewrite (filter_cons _ t []). case_decide; [apply NoDup_singleton | apply NoDup_nil_2].
Qed.

Lemma consistent_open rm db : draft_open rm db → consistent rm db.
Proof.
  intros (Hl & Hids & Hpl). split; try done.
  - by rewrite Hl.
  - rewrite Hl. apply NoDup_nil_2.
  - intros cid. rewrite Hl. apply NoDup_nil_2.
Qed.

Lemma NoDup_snoc_fresh {A} (l : list A) (x : A) : NoDup l → x ∉ l → NoDup (l ++ [x]).
Proof.
  intros Hnd Hx. apply NoDup_app. split_and!; [done | | apply NoDup_singleton].
  intros y Hy ->%list_elem_of_singleton. done.
Qed.

(** A pick committed from a freshly loaded session is appended to the ledger
    of its room under the number [length + 1]. *)
Lemma draftPlayer_fresh_append rm e player v db v' db' :
  loaded_from rm v db →
  draftPlayer e player v db = (Committed, v', db') →
  ∃ c,
    coach v = Some c
    ∧ db' = insert_pick
              (PickRec.mk (new_id e) (Room.id rm) (Coach.id c)
                 (Z.of_nat (length (ledger (Room.id rm) db)) + 1)
                 (Player.id player) (now e)) db
    ∧ ledger (Room.id rm) db'
      = ledger (Room.id rm) db
        ++ [PickRec.mk (new_id e) (Room.id rm) (Coach.id c)
              (Z.of_nat (length (ledger (Room.id rm) db)) + 1)
              (Player.id player) (now e)].
Proof.
  intros Hload Hd.
  apply draftPlayer_Committed_inv in Hd as (rm' & c & Hr & Hc & _ & _ & _ & _ & _ & ->).
  destruct Hload as [Hr' Hp]. rewrite Hr' in Hr. injection Hr as <-.
  rewrite Hp, select_picks_length. exists c. split_and!; [done..|].
  rewrite ledger_insert_pick. simpl. by rewrite decide_True.
Qed.

Lemma consistent_draft rm e player v db v' db' :
  consistent rm db →
  loaded_from rm v db →
  player ∈ players_tbl db →
  new_id e ∉ (PickRec.id <$> picks_tbl db) →
  draftPlayer e player v db = (Committed, v', db') →
  consistent rm db'.
Proof.
  intros [Hids Hpl Hrounds Honce Hteam] Hload Hcat Hfresh Hd.
  destruct (draftPlayer_fresh_append _ _ _ _ _ _ _ Hload Hd) as (c & Hc & -> & Hledger).
  apply draftPlayer_Committed_inv in Hd as (rm' & c' & _ & Hc' & _ & _ & Ht & Hdr & _ & _).
  rewrite Hc in Hc'. injection Hc' as <-.
  split.
  - simpl. rewrite fmap_app. by apply NoDup_snoc_fresh.
  - done.
  - rewrite Hledger, fmap_app, length_app, Hrounds. simpl.
    rewrite Nat.add_1_r, seq_S, fmap_app. simpl. do 2 f_equal. lia.
  - rewrite Hledger, fmap_app. apply NoDup_snoc_fresh; [done|]. simpl.
    by rewrite <- (draftedPlayerIds_loaded rm v db).
  - intros cid. rewrite Hledger, teams_of_app.
    change (teams_of (insert_pick ?r db)) with (teams_of db).
    apply NoDup_app. split_and!; [done | | apply teams_of_singleton_NoDup].
    intros t Hin Hnew. apply Ht.
    apply elem_of_teams_of in Hnew as (_ & r & ->%list_elem_of_singleton & Hcid & Haff).
    simpl in Hcid. subst cid.
    unfold affiliation in Haff. simpl in Haff.
    rewrite find_player_elem_of in Haff by done. injection Haff as ->.
    by apply (myTeamsUsed_loaded rm v db c).
Qed.

(** In a contiguous ledger the pick with the largest number is the last row. *)
Lemma contiguous_last (l1 l2 : list PickRec.t) (x : PickRec.t) :
  PickRec.round <$> l1 ++ x :: l2 = Z.of_nat <$> seq 1 (length (l1 ++ x :: l2)) →
  (∀ r, r ∈ l1 ++ x :: l2 → PickRec.round r ≤ PickRec.round x) →
  l2 = [] ∧ PickRec.round <$> l1 = Z.of_nat <$> seq 1 (length l1).
Proof.
  rewrite length_app, seq_app, !fmap_app. intros Heq Hmax.
  apply app_inj_1 in Heq as [H1 H2]; [|by rewrite !length_fmap, length_seq].
  split; [|done].
  destruct l2 as [|y l2]; [done|]. simpl in H2.
  injection H2 as Hx Hy _.
  assert (PickRec.round y ≤ PickRec.round x) as Hle.
  { apply Hmax. rewrite elem_of_app, !elem_of_cons. auto. }
  lia.
Qed.

Lemma consistent_undo rm e v db v' db' :
  consistent rm db →
  room v = Some rm →
  undoLastPick e v db = (Undone, v', db') →
  consistent rm db' ∧ ∃ latest, ledger (Room.id rm) db = ledger (Room.id rm) db' ++ [latest].
Proof.
  intros [Hids Hpl Hrounds Honce Hteam] Hr Hu.
  apply undoLastPick_Undone_inv in Hu as (rm' & latest & Hr' & Hlatest & ->).
  rewrite Hr in Hr'. injection Hr' as <-.
  destruct (latest_pick_Some _ _ _ Hlatest) as [Hin Hmax].
  destruct (list_elem_of_split _ _ Hin) as (l1 & l2 & Hsplit).
  rewrite Hsplit in Hrounds, Hmax.
  destruct (contiguous_last _ _ _ Hrounds Hmax) as [-> Hrounds1].
  assert (ledger (Room.id rm) (delete_pick (PickRec.id latest) db) = l1) as Hl1.
  { rewrite ledger_delete_pick, Hsplit, filter_unique_id, app_nil_r; [done|].
    rewrite <- Hsplit. by apply ledger_ids_NoDup. }
  split; [|exists latest; by rewrite Hl1].
  split.
  - simpl. eapply sublist_NoDup; [exact Hids|]. apply fmap_sublist, sublist_filter.
  - done.
  - by rewrite Hl1.
  - rewrite Hl1. rewrite Hsplit, fmap_app in Honce. by apply NoDup_app in Honce as [? _].
  - intros cid. rewrite Hl1.
    change (teams_of (delete_pick ?i db)) with (teams_of db).
    specialize (Hteam cid). rewrite Hsplit, teams_of_app in Hteam.
    by apply NoDup_app in Hteam as [? _].
Qed.

Lemma history_fresh_consistent rm h :
  history fresh_snapshot rm h → ∀ db past, h = db :: past → consistent rm db.
Proof.
  induction 1 as [db Hopen
                 | e player v seen db past v' db' _ IH Hrule Hload Hcat Hid Hd
                 | e v seen db past v' db' _ IH Hrule Hload Hu];
    intros db1 past1 Heq; injection Heq as <- <-.
  - by apply consistent_open.
  - unfold fresh_snapshot in Hrule. subst seen.
    eapply consistent_draft; [by eapply IH | done..].
  - destruct Hload as [Hr _].
    by eapply consistent_undo; [eapply IH | ..].
Qed.

Lemma draftPlayer_rejected_outcomes e player v db :
  (draftPlayer e player v db).1.1 ∈
    [NotLoaded; InvalidConfiguration; OutOfTurn; TeamConflict; AlreadyDrafted]
  ∨ (∃ msg, (draftPlayer e player v db).1.1 = DbError msg)
  ∨ (draftPlayer e player v db).1.1 = Committed.
Proof.
  unfold draftPlayer.
  destruct (room v); [|left; by_compute]. destruct (coach v); [|left; by_compute].
  repeat case_decide; try (left; by_compute).
  destruct (insert_error e) as [msg|]; [right; left; by exists msg | by right; right].
Qed.

(** ** Example drafts *)

Lemma example_open : draft_open Example.room0 Example.db0.
Proof. split_and!; [done | apply NoDup_nil_2 | by_compute]. Qed.

Lemma example_loaded c db : loaded_from Example.room0 (Example.session c db) db.
Proof. done. Qed.

Lemma example_first_pick rule :
  rule Example.db0 Example.db0 [] →
  history rule Example.room0 [Example.db1; Example.db0].
Proof.
  intros Hrule.
  eapply (history_draft _ _ (Example.env "k1" 1) Example.p1
            (Example.session Example.coachA Example.db0) Example.db0).
  - apply history_open, example_open.
  - exact Hrule.
  - apply example_loaded.
  - by_compute.
  - by_compute.
  - by vm_compute.
Qed.

Lemma example_fresh_history :
  history fresh_snapshot Example.room0 [Example.db2; Example.db1; Example.db0].
Proof.
  eapply (history_draft _ _ (Example.env "k2" 2) Example.p3
            (Example.session Example.coachB Example.db1) Example.db1).
  - by apply example_first_pick.
  - reflexivity.
  - apply example_loaded.
  - by_compute.
  - by_compute.
  - by vm_compute.
Qed.

(** Pick 1 by coach A, then a pick by a session of coach A that still shows
    the open draft. *)
Lemma example_stale_history player :
  player ∈ players_tbl Example.db1 →
  (draftPlayer (Example.env "k2" 2) player
     (Example.session Example.coachA Example.db0) Example.db1).1.1 = Committed →
  history any_snapshot Example.room0
    [(draftPlayer (Example.env "k2" 2) player
        (Example.session Example.coachA Example.db0) Example.db1).2;
     Example.db1; Example.db0].
Proof.
  intros Hpl Hok.
  destruct (draftPlayer (Example.env "k2" 2) player
              (Example.session Example.coachA Example.db0) Example.db1)
    as [[o v'] db'] eqn:Hd.
  simpl in Hok |- *. subst o.
  eapply (history_draft _ _ (Example.env "k2" 2) player
            (Example.session Example.coachA Example.db0) Example.db0 Example.db1).
  - apply example_first_pick. left.
  - right. left.
  - apply example_loaded.
  - done.
  - by_compute.
  - exact Hd.
Qed.

(** ** Sequence numbers *)

(** C4 (amended). Starting from the empty ledger, after any sequence of
    successful picks and undos that are each made by a session that has
    loaded the current picks, the stored pick numbers are exactly
    1, ..., length (in table order).  From such a state a committed pick is
    appended under the number length + 1, and a successful undo removes the
    last row, whose number is the length, and nothing else. *)
Theorem fresh_history_contiguous rm db past :
  history fresh_snapshot rm (db :: past) →
  PickRec.round <$> ledger (Room.id rm) db
  = Z.of_nat <$> seq 1 (length (ledger (Room.id rm) db))
  ∧ (∀ e player v v' db',
       loaded_from rm v db →
       draftPlayer e player v db = (Committed, v', db') →
       ∃ r, ledger (Room.id rm) db' = ledger (Room.id rm) db ++ [r]
            ∧ PickRec.round r = Z.of_nat (length (ledger (Room.id rm) db)) + 1)
  ∧ (∀ e v v' db',
       room v = Some rm →
       undoLastPick e v db = (Undone, v', db') →
       ∃ latest, ledger (Room.id rm) db = ledger (Room.id rm) db' ++ [latest]
                 ∧ PickRec.round latest = Z.of_nat (length (ledger (Room.id rm) db))).
Proof.
  intros Hh. pose proof (history_fresh_consistent rm _ Hh db past eq_refl) as Hcons.
  split_and!.
  - apply Hcons.
  - intros e player v v' db' Hload Hd.
    destruct (draftPlayer_fresh_append _ _ _ _ _ _ _ Hload Hd) as (c & _ & _ & Hl).
    eexists. split; [exact Hl | done].
  - intros e v v' db' Hr Hu.
    destruct (consistent_undo _ _ _ _ _ _ Hcons Hr Hu) as [Hcons' [latest Hl]].
    exists latest. split; [done|].
    pose proof (rounds_contiguous _ _ Hcons) as H1.
    pose proof (rounds_contiguous _ _ Hcons') as H2.
    rewrite Hl, fmap_app, length_app, H2 in H1. simpl in H1.
    rewrite Nat.add_1_r, seq_S, fmap_app in H1.
    apply app_inv_head in H1. injection H1 as ->.
    rewrite Hl, length_app. simpl. lia.
Qed.

Lemma fresh_history_contiguous_witness :
  PickRec.round <$> ledger "room-1" Example.db2
  = Z.of_nat <$> seq 1 (length (ledger "room-1" Example.db2)).
Proof.
  apply (fresh_history_contiguous Example.room0 Example.db2
           [Example.db1; Example.db0] example_fresh_history).
Defined.

(** C4 fails as stated: coach A drafts pick 1; a second session of coach A
    that still shows the open draft then drafts another player.  Both picks
    succeed and both carry the number 1; no pick carries the number 2. *)
Lemma stale_history_repeats_number :
  history any_snapshot Example.room0 [Example.db1_stale; Example.db1; Example.db0]
  ∧ PickRec.round <$> ledger "room-1" Example.db1_stale = [1; 1]
  ∧ Z.of_nat <$> seq 1 (length (ledger "room-1" Example.db1_stale)) = [1; 2].
Proof.
  split_and!; [|by vm_compute..].
  apply (example_stale_history Example.p3); [by_compute | by vm_compute].
Qed.

(** ** Every player at most once *)

(** C5 (amended). In every ledger state reached by successful picks and undos
    that are each made by a session that has loaded the current picks, no
    player id appears in more than one pick.  When such a session submits a
    player whose id appears in a pick of the ledger, whoever made that pick,
    the submission is rejected by one of the checks and the session and the
    database stay as they were; the answer is AlreadyDrafted as soon as the
    earlier checks (room and coach loaded, draft order set, turn, team rule)
    pass. *)
Theorem fresh_history_players_once rm db past :
  history fresh_snapshot rm (db :: past) →
  NoDup (PickRec.player_id <$> ledger (Room.id rm) db)
  ∧ (∀ e player v,
       loaded_from rm v db →
       Player.id player ∈ PickRec.player_id <$> ledger (Room.id rm) db →
       (draftPlayer e player v db).1.1 ∈
         [NotLoaded; InvalidConfiguration; OutOfTurn; TeamConflict; AlreadyDrafted]
       ∧ draftPlayer e player v db = ((draftPlayer e player v db).1.1, v, db)
       ∧ (∀ c, coach v = Some c → Room.draft_order rm ≠ [] →
               getCoachIdForPick (Z.of_nat (length (picks v)) + 1) (Room.draft_order rm)
                 = Some (Coach.id c) →
               Player.nfl_team player ∉ myTeamsUsed v →
               draftPlayer e player v db = (AlreadyDrafted, v, db))).
Proof.
  intros Hh. pose proof (history_fresh_consistent rm _ Hh db past eq_refl) as Hcons.
  split; [apply Hcons|].
  intros e player v Hload Hin.
  apply (draftedPlayerIds_loaded rm v db) in Hin; [|done].
  assert (∀ c, coach v = Some c → Room.draft_order rm ≠ [] →
            getCoachIdForPick (Z.of_nat (length (picks v)) + 1) (Room.draft_order rm)
              = Some (Coach.id c) →
            Player.nfl_team player ∉ myTeamsUsed v →
            draftPlayer e player v db = (AlreadyDrafted, v, db)) as Hlast.
  { intros c Hc Ho Hx Ht. destruct Hload as [Hr _].
    by apply (draftPlayer_already_drafted _ _ _ _ rm c). }
  assert ((draftPlayer e player v db).1.1 ≠ Committed) as Hno.
  { destruct (draftPlayer e player v db) as [[o v'] db'] eqn:Hd. simpl. intros ->.
    by apply draftPlayer_Committed_inv in Hd as (? & ? & _ & _ & _ & _ & _ & Hnot & _). }
  split_and!; [|by apply draftPlayer_rejected|done].
  destruct (draftPlayer_rejected_outcomes e player v db) as [Hrej | [[msg Hdb] | Hok]];
    [done | | done].
  exfalso. revert Hdb. unfold draftPlayer.
  destruct (room v); [|done]. destruct (coach v); [|done].
  repeat case_decide; done.
Qed.

Lemma fresh_history_players_once_witness :
  NoDup (PickRec.player_id <$> ledger "room-1" Example.db2).
Proof.
  apply (fresh_history_players_once Example.room0 Example.db2
           [Example.db1; Example.db0] example_fresh_history).
Defined.

(** C5 fails as stated: after coach A drafted [p1] as pick 1, a session of
    coach A that still shows the open draft drafts [p1] again.  The pick is
    committed and the ledger holds the player twice. *)
Lemma stale_history_repeats_player :
  history any_snapshot Example.room0 [Example.db1_again; Example.db1; Example.db0]
  ∧ PickRec.player_id <$> ledger "room-1" Example.db1_again = ["p1"; "p1"]
  ∧ (draftPlayer (Example.env "k2" 2) Example.p1
       (Example.session Example.coachA Example.db0) Example.db1).1.1 = Committed.
Proof.
  split_and!; [|by vm_compute..].
  apply (example_stale_history Example.p1); [by_compute | by vm_compute].
Qed.

(** ** One player per NFL team *)

Lemma teams_of_positions db cid (l : list PickRec.t) i j r1 r2 T :
  NoDup (teams_of db cid l) →
  l !! i = Some r1 → l !! j = Some r2 → i ≠ j →
  PickRec.coach_id r1 = cid → PickRec.coach_id r2 = cid →
  affiliation db r1 = Some T → affiliation db r2 = Some T →
  T = EmptyString.
Proof.
  revert i j. induction l as [|x l IH]; intros i j Hnd Hi Hj Hij Hc1 Hc2 Ha1 Ha2;
    [done|].
  change (x :: l) with ([x] ++ l) in Hnd. rewrite teams_of_app in Hnd.
  apply NoDup_app in Hnd as (_ & Hdisj & Hnd).
  destruct (decide (T = EmptyString)) as [|Hne]; [done|]. exfalso.
  assert (∀ r k, l !! k = Some r → PickRec.coach_id r = cid →
                 affiliation db r = Some T → T ∈ teams_of db cid l) as Hin.
  { intros r k Hk Hc Ha. apply elem_of_teams_of. split; [done|].
    exists r. split_and!; [by eapply list_elem_of_lookup_2 | done..]. }
  assert (∀ r, x = r → PickRec.coach_id r = cid →
               affiliation db r = Some T → T ∈ teams_of db cid [x]) as Hhd.
  { intros r -> Hc Ha. apply elem_of_teams_of. split; [done|].
    exists r. split_and!; [by apply list_elem_of_singleton | done..]. }
  destruct i as [|i], j as [|j]; simpl in Hi, Hj.
  - done.
  - injection Hi as Hx. by eapply Hdisj; [eapply Hhd | eapply Hin].
  - injection Hj as Hx. by eapply Hdisj; [eapply Hhd | eapply Hin].
  - destruct Hne. eapply (IH i j); eauto.
Qed.

(** C6 (amended). In every ledger state reached by successful picks and undos
    that are each made by a session that has loaded the current picks, no
    coach holds two picks whose players carry the same non-empty NFL team.
    When such a session submits a catalog player whose non-empty team is
    already on the coach's roster, the submission is rejected and the session
    and the database stay as they were; the answer is TeamConflict as soon
    as the draft order is set and the coach is on the clock. *)
Theorem fresh_history_one_per_team rm db past :
  history fresh_snapshot rm (db :: past) →
  (∀ i j r1 r2 T,
     ledger (Room.id rm) db !! i = Some r1 →
     ledger (Room.id rm) db !! j = Some r2 →
     i ≠ j →
     PickRec.coach_id r1 = PickRec.coach_id r2 →
     affiliation db r1 = Some T → affiliation db r2 = Some T →
     T = EmptyString)
  ∧ (∀ e player v c r,
       loaded_from rm v db → coach v = Some c →
       r ∈ ledger (Room.id rm) db → PickRec.coach_id r = Coach.id c →
       affiliation db r = Some (Player.nfl_team player) →
       Player.nfl_team player ≠ EmptyString →
       (draftPlayer e player v db).1.1 ∈ [InvalidConfiguration; OutOfTurn; TeamConflict]
       ∧ draftPlayer e player v db = ((draftPlayer e player v db).1.1, v, db)
       ∧ (Room.draft_order rm ≠ [] →
          getCoachIdForPick (Z.of_nat (length (picks v)) + 1) (Room.draft_order rm)
            = Some (Coach.id c) →
          draftPlayer e player v db = (TeamConflict, v, db))).
Proof.
  intros Hh. pose proof (history_fresh_consistent rm _ Hh db past eq_refl) as Hcons.
  split.
  - intros i j r1 r2 T Hi Hj Hij Hc Ha1 Ha2.
    by eapply (teams_of_positions db (PickRec.coach_id r2) _ i j r1 r2 T);
      [apply Hcons | ..].
  - intros e player v c r Hload Hc Hr Hcid Haff Hne.
    assert (Player.nfl_team player ∈ myTeamsUsed v) as Hused.
    { apply (myTeamsUsed_loaded rm v db c); [done..|].
      apply elem_of_teams_of. split; [done|]. by exists r. }
    destruct Hload as [Hroom _].
    unfold draftPlayer. rewrite Hroom, Hc.
    case_decide; [split_and!; [by_compute | done | done]|].
    case_decide; [split_and!; [by_compute | done | by intros _ ?]|].
    rewrite decide_True by done. split_and!; [by_compute | done | done].
Qed.

Lemma fresh_history_one_per_team_witness :
  draftPlayer (Example.env "k3" 3) Example.p3
    (Example.session Example.coachB Example.db2) Example.db2
  = (TeamConflict, Example.session Example.coachB Example.db2, Example.db2).
Proof.
  eapply (proj2 (fresh_history_one_per_team Example.room0 Example.db2
                   [Example.db1; Example.db0] example_fresh_history)
            (Example.env "k3" 3) Example.p3
            (Example.session Example.coachB Example.db2) Example.coachB
            (PickRec.mk "k2" "room-1" "B" 2 "p3" 2));
    [apply example_loaded | reflexivity | by_compute | reflexivity
    | by vm_compute | done | done | by vm_compute].
Defined.

(** C6 fails as stated: after coach A drafted [p1] of KC as pick 1, a session
    of coach A that still shows the open draft drafts [p2], also of KC.  The
    pick is committed and coach A holds two players of KC. *)
Lemma stale_history_repeats_team :
  history any_snapshot Example.room0 [Example.db1_team; Example.db1; Example.db0]
  ∧ PickRec.coach_id <$> ledger "room-1" Example.db1_team = ["A"; "A"]
  ∧ affiliation Example.db1_team <$> ledger "room-1" Example.db1_team
    = [Some "KC"; Some "KC"]
  ∧ (draftPlayer (Example.env "k2" 2) Example.p2
       (Example.session Example.coachA Example.db0) Example.db1).1.1 = Committed.
Proof.
  split_and!; [|by vm_compute..].
  apply (example_stale_history Example.p2); [by_compute | by vm_compute].
Qed.

(** ** Races for one slot *)

(** The answer of the pick path is computed from the session alone. *)
Lemma draftPlayer_outcome_any_db e player v db1 db2 :
  (draftPlayer e player v db1).1.1 = (draftPlayer e player v db2).1.1.
Proof.
  unfold draftPlayer.
  destruct (room v); [|done]. destruct (coach v); [|done].
  repeat case_decide; try done. by destruct (insert_error e).
Qed.

Lemma race_cons e player v rest db :
  race ((e, player, v) :: rest) db
  = ((draftPlayer e player v db).1.1 :: (race rest (draftPlayer e player v db).2).1,
     (race rest (draftPlayer e player v db).2).2).
Proof.
  simpl. destruct (draftPlayer e player v db) as [[o v'] db1]. simpl.
  by destruct (race rest db1).
Qed.

Lemma race_outcomes db0 subs db :
  (race subs db).1 = (λ s, (draftPlayer s.1.1 s.1.2 s.2 db0).1.1) <$> subs.
Proof.
  revert db. induction subs as [|[[e player] v] rest IH]; intros db; [done|].
  rewrite race_cons, fmap_cons. simpl. f_equal; [apply draftPlayer_outcome_any_db | apply IH].
Qed.

Lemma commits_cons o os :
  commits (o :: os) = ((if decide (o = Committed) then 1 else 0) + commits os)%nat.
Proof. unfold commits. rewrite filter_cons. by case_decide. Qed.

(** Every commit of a race appends one row, numbered after the picks the
    submitting session had loaded. *)
Lemma race_ledger rm n subs db :
  (∀ s, s ∈ subs → room s.2 = Some rm ∧ length (picks s.2) = n) →
  ∃ new,
    ledger (Room.id rm) (race subs db).2 = ledger (Room.id rm) db ++ new
    ∧ length new = commits (race subs db).1
    ∧ Forall (λ r, PickRec.round r = Z.of_nat n + 1) new.
Proof.
  revert db. induction subs as [|[[e player] v] rest IH]; intros db Hall.
  { exists []. by rewrite app_nil_r. }
  rewrite race_cons. cbn [fst snd]. rewrite commits_cons.
  destruct (Hall (e, player, v)) as [Hroom Hlen]; [left|]. simpl in Hroom, Hlen.
  assert (∀ s, s ∈ rest → room s.2 = Some rm ∧ length (picks s.2) = n) as Hrest.
  { intros s Hs. apply Hall. by right. }
  destruct (draftPlayer e player v db) as [[o v'] db1] eqn:Hd. cbn [fst snd].
  destruct (IH db1 Hrest) as (new & Hl & Hn & Hr).
  case_decide as Ho.
  - subst o.
    apply draftPlayer_Committed_inv in Hd
      as (rm' & c & Hroom' & _ & _ & _ & _ & _ & _ & ->).
    rewrite Hroom in Hroom'. injection Hroom' as <-.
    rewrite ledger_insert_pick in Hl. simpl in Hl. rewrite decide_True in Hl by done.
    eexists (_ :: new). split_and!.
    + by rewrite Hl, <- app_assoc.
    + simpl. by rewrite Hn.
    + constructor; [simpl; by rewrite Hlen | done].
  - pose proof (draftPlayer_rejected e player v db) as Hrej.
    rewrite Hd in Hrej. simpl in Hrej. specialize (Hrej Ho). injection Hrej as _ <-.
    by exists new.
Qed.

Lemma commits_none {A} (g : A → Outcome) (l : list A) :
  (∀ s, s ∈ l → g s ≠ Committed) → commits (g <$> l) = 0%nat.
Proof.
  induction l as [|s l IH]; intros Hall; [done|].
  rewrite fmap_cons, commits_cons, decide_False, IH; [done | | ].
  - intros s' Hs'. apply Hall. by right.
  - apply Hall. left.
Qed.

(** Among submitters that are pairwise different, at most one is the coach
    the commit asks for. *)
Lemma commits_le_one {A B} (g : A → Outcome) (f : A → B) (x : B) (l : list A) :
  NoDup (f <$> l) →
  (∀ s, s ∈ l → g s = Committed → f s = x) →
  (commits (g <$> l) ≤ 1)%nat.
Proof.
  induction l as [|s l IH]; intros Hnd Hall; [unfold commits; simpl; lia|].
  rewrite fmap_cons in Hnd. apply NoDup_cons in Hnd as [Hs Hnd].
  rewrite fmap_cons, commits_cons.
  case_decide as Hg.
  - rewrite commits_none; [lia|].
    intros s' Hs' Hg'. apply Hs.
    rewrite (Hall s), <- (Hall s'); [by apply list_elem_of_fmap_2 | by right | done | left | done].
  - simpl. apply IH; [done|]. intros s' Hs'. apply Hall. by right.
Qed.

Lemma commits_out_of_turns os :
  Forall (λ o, o = Committed ∨ o = OutOfTurn) os →
  (commits os + out_of_turns os = length os)%nat.
Proof.
  induction 1 as [|o os [-> | ->] _ IH]; [done | |];
    unfold commits, out_of_turns in *; rewrite !filter_cons; simpl; lia.
Qed.

Lemma commits_elem_of os : Committed ∈ os → (1 ≤ commits os)%nat.
Proof.
  intros Hin. unfold commits.
  assert (Committed ∈ filter (λ o, o = Committed) os) as Hf
    by by apply list_elem_of_filter.
  destruct (filter (λ o, o = Committed) os); [by apply elem_of_nil in Hf | simpl; lia].
Qed.

Lemma race_no_commit subs db :
  commits (race subs db).1 = 0%nat → (race subs db).2 = db.
Proof.
  revert db. induction subs as [|[[e player] v] rest IH]; intros db; [done|].
  rewrite race_cons. cbn [fst snd]. rewrite commits_cons.
  pose proof (draftPlayer_rejected e player v db) as Hrej.
  destruct (draftPlayer e player v db) as [[o v'] db1]. cbn [fst snd] in *.
  case_decide as Ho; [done|]. simpl. intros Hrest.
  specialize (Hrej Ho). injection Hrej as _ <-. by apply IH.
Qed.

(** A race in which at most one submission commits keeps the database
    consistent: the one commit is made on the state all sessions loaded. *)
Lemma race_consistent rm subs db :
  consistent rm db →
  (∀ s, s ∈ subs →
        loaded_from rm s.2 db ∧ s.1.2 ∈ players_tbl db
        ∧ new_id s.1.1 ∉ (PickRec.id <$> picks_tbl db)) →
  (commits (race subs db).1 ≤ 1)%nat →
  consistent rm (race subs db).2.
Proof.
  intros Hcons. induction subs as [|[[e player] v] rest IH]; intros Hall; [done|].
  rewrite race_cons. cbn [fst snd]. rewrite commits_cons.
  destruct (Hall (e, player, v)) as (Hload & Hcat & Hid); [left|].
  simpl in Hload, Hcat, Hid.
  destruct (draftPlayer e player v db) as [[o v'] db1] eqn:Hd. cbn [fst snd].
  case_decide as Ho.
  - subst o. intros Hle. rewrite race_no_commit by lia.
    by eapply consistent_draft.
  - pose proof (draftPlayer_rejected e player v db) as Hrej.
    rewrite Hd in Hrej. simpl in Hrej. specialize (Hrej Ho). injection Hrej as _ <-.
    simpl. apply IH. intros s Hs. apply Hall. by right.
Qed.

Lemma loaded_on_the_clock rm v db :
  loaded_from rm v db →
  getCoachIdForPick (Z.of_nat (length (picks v)) + 1) (Room.draft_order rm)
  = getCoachIdForPick (Z.of_nat (length (ledger (Room.id rm) db)) + 1)
      (Room.draft_order rm).
Proof. intros [_ ->]. by rewrite select_picks_length. Qed.

(** C3 (amended). K submissions by K pairwise different coaches race for the
    next slot of a room with a draft order: every one is made from a session
    that has loaded the picks of the ledger as it is when the race starts,
    and the database serves them in any order.  Then at most one of them
    commits; every submitter other than the coach on the clock gets
    OutOfTurn; the ledger gains one row per commit, numbered length + 1, and
    a consistent database (pick numbers 1..length, no player twice, one
    player per team and coach) stays consistent when the players come from
    the catalog and the new rows get fresh ids.  When the coach on the clock
    is among them with a player that passes the team and duplicate checks
    and the insert is accepted, exactly 1 submission commits and K - 1 get
    OutOfTurn. *)
Theorem race_distinct_coaches rm db subs :
  Room.draft_order rm ≠ [] →
  (∀ s, s ∈ subs → loaded_from rm s.2 db ∧ is_Some (coach s.2)) →
  NoDup (submitter <$> subs) →
  let onTheClock :=
    getCoachIdForPick (Z.of_nat (length (ledger (Room.id rm) db)) + 1)
      (Room.draft_order rm) in
  let os := (race subs db).1 in
  let db' := (race subs db).2 in
  (commits os ≤ 1)%nat
  ∧ Forall2 (λ s o, submitter s ≠ onTheClock → o = OutOfTurn) subs os
  ∧ (∃ new,
       ledger (Room.id rm) db' = ledger (Room.id rm) db ++ new
       ∧ length new = commits os
       ∧ Forall (λ r, PickRec.round r
                      = Z.of_nat (length (ledger (Room.id rm) db)) + 1) new)
  ∧ (consistent rm db →
     (∀ s, s ∈ subs →
           s.1.2 ∈ players_tbl db ∧ new_id s.1.1 ∉ (PickRec.id <$> picks_tbl db)) →
     consistent rm db')
  ∧ (∀ s, s ∈ subs → submitter s = onTheClock →
          Player.nfl_team s.1.2 ∉ myTeamsUsed s.2 →
          Player.id s.1.2 ∉ draftedPlayerIds s.2 →
          insert_error s.1.1 = None →
          commits os = 1%nat ∧ out_of_turns os = (length subs - 1)%nat).
Proof.
  intros Horder Hall Hnd onTheClock os db'.
  set (verdict := λ s : Env * Player.t * View, (draftPlayer s.1.1 s.1.2 s.2 db).1.1).
  assert (os = verdict <$> subs) as Hos by apply race_outcomes.
  assert (∀ s, s ∈ subs → verdict s = Committed → submitter s = onTheClock) as Hwin.
  { intros [[e player] v] Hs Hv. destruct (Hall _ Hs) as [Hload _]. simpl in Hload.
    unfold verdict in Hv. simpl in Hv.
    destruct (draftPlayer e player v db) as [[o v'] db1] eqn:Hd. simpl in Hv. subst o.
    apply draftPlayer_Committed_inv in Hd as (rm' & c & Hr & Hc & _ & Hx & _).
    destruct Hload as [Hr' Hp]. rewrite Hr' in Hr. injection Hr as <-.
    unfold submitter, onTheClock. simpl. rewrite Hc. simpl.
    by rewrite <- Hx, (loaded_on_the_clock rm v db). }
  assert (∀ s, s ∈ subs → submitter s ≠ onTheClock → verdict s = OutOfTurn) as Hlose.
  { intros [[e player] v] Hs Hne. destruct (Hall _ Hs) as [Hload [c Hc]].
    simpl in Hload, Hc. unfold verdict. simpl.
    rewrite (draftPlayer_out_of_turn e player v db rm c); [done | apply Hload | done..|].
    rewrite (loaded_on_the_clock rm v db) by done.
    intros Heq. apply Hne. unfold submitter. simpl. by rewrite Hc. }
  split_and!.
  - rewrite Hos. by apply (commits_le_one verdict submitter onTheClock).
  - rewrite Hos. apply Forall2_fmap_r, Forall_Forall2_diag, Forall_forall.
    intros s Hs Hne. by apply Hlose.
  - apply race_ledger. intros s Hs. destruct (Hall _ Hs) as [[Hr Hp] _].
    split; [done|]. by rewrite Hp, select_picks_length.
  - intros Hcons Hcat. apply race_consistent; [done | |].
    + intros s Hs. destruct (Hall _ Hs) as [Hload _]. destruct (Hcat _ Hs). done.
    + fold os. rewrite Hos. by apply (commits_le_one verdict submitter onTheClock).
  - intros [[e player] v] Hs Hon Hteam Hdup Hins. simpl in Hteam, Hdup, Hins.
    destruct (Hall _ Hs) as [Hload [c Hc]]. simpl in Hload, Hc.
    assert (verdict (e, player, v) = Committed) as Hv.
    { unfold verdict. simpl.
      rewrite (draftPlayer_insert e player v db rm c), Hins; [done | apply Hload | done..| | done | done].
      rewrite (loaded_on_the_clock rm v db) by done.
      fold onTheClock. rewrite <- Hon. unfold submitter. simpl. by rewrite Hc. }
    assert (commits os = 1%nat) as Hone.
    { assert (commits os ≤ 1)%nat
        by (rewrite Hos; by apply (commits_le_one verdict submitter onTheClock)).
      assert (1 ≤ commits os)%nat; [|lia].
      apply commits_elem_of. rewrite Hos, <- Hv. by apply list_elem_of_fmap_2. }
    split; [done|].
    assert (Forall (λ o, o = Committed ∨ o = OutOfTurn) os) as Hboth.
    { rewrite Hos. apply Forall_fmap, Forall_forall. intros s' Hs'. simpl.
      destruct (decide (submitter s' = onTheClock)) as [Heq|Hne].
      - left. rewrite <- Hv. f_equal.
        eapply (NoDup_fmap_eq submitter); [exact Hnd | done | done | by rewrite Heq].
      - right. by apply Hlose. }
    apply commits_out_of_turns in Hboth.
    assert (length os = length subs) by (by rewrite Hos, length_fmap). lia.
Qed.

Lemma race_distinct_coaches_witness :
  let subs :=
    [(Example.env "k1" 1, Example.p1, Example.session Example.coachA Example.db0);
     (Example.env "k2" 2, Example.p3, Example.session Example.coachB Example.db0)] in
  commits (race subs Example.db0).1 = 1%nat
  ∧ out_of_turns (race subs Example.db0).1 = (length subs - 1)%nat.
Proof.
  intros subs.
  assert (∀ s, s ∈ subs →
               loaded_from Example.room0 s.2 Example.db0 ∧ is_Some (coach s.2)) as Hall.
  { intros s Hs. unfold subs in Hs. rewrite !elem_of_cons, elem_of_nil in Hs.
    destruct Hs as [-> | [-> | []]]; (split; [apply example_loaded | by eexists]). }
  assert (NoDup (submitter <$> subs)) as Hnd by by_compute.
  destruct (race_distinct_coaches Example.room0 Example.db0 subs
              ltac:(done) Hall Hnd) as (_ & _ & _ & _ & Hexact).
  apply (Hexact (Example.env "k1" 1, Example.p1,
                 Example.session Example.coachA Example.db0));
    [left | by vm_compute | by_compute | by_compute | reflexivity].
Defined.

(** C3 fails as stated: two submissions of coach A, made from the same loaded
    picks (two sessions, or a second click before the reload), race for
    pick 1 with two different eligible players.  When the database accepts
    both inserts, both commit and the ledger holds two picks numbered 1.
    When it refuses the second, the loser gets the database's message, which
    is none of OutOfTurn, AlreadyDrafted and TeamConflict. *)
Lemma race_same_coach_both_commit :
  let v := Example.session Example.coachA Example.db0 in
  race [(Example.env "k1" 1, Example.p1, v); (Example.env "k2" 2, Example.p3, v)]
       Example.db0
  = ([Committed; Committed], Example.db1_stale)
  ∧ PickRec.round <$> ledger "room-1" Example.db1_stale = [1; 1]
  ∧ PickRec.player_id <$> ledger "room-1" Example.db1_stale = ["p1"; "p3"]
  ∧ (race [(Example.env "k1" 1, Example.p1, v);
           (Example.env_refusing "duplicate key" "k2" 2, Example.p3, v)]
          Example.db0).1
    = [Committed; DbError "duplicate key"].
Proof. split_and!; by vm_compute. Qed.

(** * Further properties of the page *)

(** ** The resolver *)

(** X1. Whatever the pick number, the resolver only ever names a coach of the
    draft order. *)
Theorem getCoachIdForPick_in_order (p : Z) (order : list string) (c : string) :
  getCoachIdForPick p order = Some c → c ∈ order.
Proof.
  unfold getCoachIdForPick, js_index. case_decide; [done|].
  case_decide; [|done]. apply list_elem_of_lookup_2.
Qed.

Lemma getCoachIdForPick_in_order_witness : "B" ∈ ["A"; "B"; "C"].
Proof. apply (getCoachIdForPick_in_order 5 ["A"; "B"; "C"] "B"). reflexivity. Defined.

Lemma getCoachIdForPick_slot (order : list string) (r : Z) (k : nat) :
  1 ≤ r → (k < length order)%nat →
  getCoachIdForPick ((r - 1) * Z.of_nat (length order) + Z.of_nat k + 1) order
  = if decide (reversed_round r) then reverse order !! k else order !! k.
Proof.
  intros Hr Hk. set (n := Z.of_nat (length order)).
  assert (1 ≤ n) by lia.
  rewrite (getCoachIdForPick_index order _ r) by (fold n; nia).
  fold n.
  replace ((r - 1) * n + Z.of_nat k + 1 - 1) with (Z.of_nat k + (r - 1) * n) by lia.
  rewrite Z_mod_plus_full, Z.mod_small by lia.
  pose proof (isReverse_reversed r ltac:(lia)) as Hrev.
  destruct (bool_decide (r = 2) || bool_decide (r = 3)
            || (bool_decide (5 ≤ r) && bool_decide (js_rem r 2 = 1))) eqn:Hb.
  - rewrite decide_True by by apply Hrev.
    rewrite reverse_lookup by done. f_equal. lia.
  - rewrite decide_False; [by rewrite Nat2Z.id|].
    intros Hyes. apply Hrev in Hyes. done.
Qed.

(** X2. Every round hands out the picks to the whole draft order, each coach
    once: in table order in the forward rounds, in reverse order in rounds
    2, 3 and the odd rounds from 5 on. *)
Theorem round_visits_every_coach (order : list string) (r : Z) :
  1 ≤ r →
  (λ k, getCoachIdForPick ((r - 1) * Z.of_nat (length order) + Z.of_nat k) order)
    <$> seq 1 (length order)
  = Some <$> (if decide (reversed_round r) then reverse order else order).
Proof.
  intros Hr. apply list_eq. intros i.
  rewrite !list_lookup_fmap.
  destruct (decide (i < length order)%nat) as [Hi|Hi].
  - rewrite lookup_seq_lt by done. cbv [fmap option_fmap option_map].
    replace ((r - 1) * Z.of_nat (length order) + Z.of_nat (1 + i))
      with ((r - 1) * Z.of_nat (length order) + Z.of_nat i + 1) by lia.
    rewrite getCoachIdForPick_slot by done.
    case_decide.
    + destruct (reverse order !! i) eqn:Hl; [done|].
      apply lookup_ge_None in Hl. rewrite length_reverse in Hl. lia.
    + destruct (order !! i) eqn:Hl; [done|]. apply lookup_ge_None in Hl. lia.
  - rewrite lookup_seq_ge by lia. cbv [fmap option_fmap option_map].
    rewrite lookup_ge_None_2; [done|]. case_decide; rewrite ?length_reverse; lia.
Qed.

Lemma round_visits_every_coach_witness :
  (λ k, getCoachIdForPick ((3 - 1) * 3 + Z.of_nat k) ["A"; "B"; "C"]) <$> seq 1 3
  = [Some "C"; Some "B"; Some "A"].
Proof. apply (round_visits_every_coach ["A"; "B"; "C"] 3). lia. Defined.

(** X3. [roundAndPickInRound] and (round - 1) * N + pickInRound are inverse
    to each other: for N >= 1 coaches and a pick number p >= 1 the round is
    at least 1, the pick in the round is between 1 and N, and both together
    give p back; and every such pair comes from exactly that p. *)
Theorem roundAndPickInRound_inverse (nCoaches : Z) :
  1 ≤ nCoaches →
  (∀ p, 1 ≤ p →
        1 ≤ (roundAndPickInRound p nCoaches).1
        ∧ 1 ≤ (roundAndPickInRound p nCoaches).2 ≤ nCoaches
        ∧ p = ((roundAndPickInRound p nCoaches).1 - 1) * nCoaches
              + (roundAndPickInRound p nCoaches).2)
  ∧ (∀ r k, 1 ≤ r → 1 ≤ k ≤ nCoaches →
            roundAndPickInRound ((r - 1) * nCoaches + k) nCoaches = (r, k)).
Proof.
  intros Hn.
  assert (∀ r k, 1 ≤ r → 1 ≤ k ≤ nCoaches →
                 roundAndPickInRound ((r - 1) * nCoaches + k) nCoaches = (r, k)) as Hinv.
  { intros r k Hr Hk. unfold roundAndPickInRound. f_equal.
    - apply ceil_div_spec; lia.
    - rewrite js_rem_nonneg by nia.
      replace ((r - 1) * nCoaches + k - 1) with (k - 1 + (r - 1) * nCoaches) by lia.
      rewrite Z_mod_plus_full, Z.mod_small; lia. }
  split; [|done].
  intros p Hp. unfold roundAndPickInRound. simpl.
  pose proof (ceil_div_bounds p nCoaches ltac:(lia)) as Hb.
  rewrite js_rem_nonneg by lia.
  pose proof (Z.mod_pos_bound (p - 1) nCoaches ltac:(lia)) as Hm.
  assert (1 ≤ ceil_div p nCoaches) by nia.
  split_and!; try lia.
  pose proof (Z.div_mod (p - 1) nCoaches ltac:(lia)) as Hdm.
  assert ((p - 1) `div` nCoaches = ceil_div p nCoaches - 1); [|nia].
  symmetry. apply (Z.div_unique_pos _ _ _ (p - 1 - (ceil_div p nCoaches - 1) * nCoaches));
    lia.
Qed.

Lemma roundAndPickInRound_inverse_witness :
  roundAndPickInRound ((2 - 1) * 12 + 7) 12 = (2, 7).
Proof. apply (roundAndPickInRound_inverse 12); lia. Defined.

Lemma reversed_round_flip (r : Z) :
  1 ≤ r → r ≠ 2 → reversed_round (r + 1) ↔ ¬ reversed_round r.
Proof.
  intros Hr Hne. unfold reversed_round.
  destruct (decide (r = 1)) as [->|];
    [split; [intros _ [?|[?|[? ?]]]; lia | intros _; by left]|].
  destruct (decide (r = 3)) as [->|].
  { split; [intros [?|[?|[? ?]]]; (lia || done) | intros Hn; destruct Hn; by right; left]. }
  replace (r + 1) with (Z.succ r) by lia. rewrite Z.odd_succ, <- Z.negb_odd.
  destruct (Z.odd r) eqn:Ho; simpl.
  - assert (r ≠ 4) by (intros ->; done).
    split; [intros [?|[?|[_ Hf]]]; [lia | lia | done]|].
    intros Hn. destruct Hn. right; right. split; [lia | done].
  - split; [intros _ [?|[?|[_ Hf]]]; [lia | lia | done]|].
    intros _. right; right. split; [lia | done].
Qed.

(** X4. At the end of a round the coach who picked last picks again first in
    the next round, except between rounds 2 and 3: round 2 ends with the
    first coach of the draft order and round 3 starts with the last one (the
    3rd round reversal). *)
Theorem round_boundary (order : list string) (r : Z) :
  order ≠ [] → 1 ≤ r →
  let n := Z.of_nat (length order) in
  (r ≠ 2 → getNextCoachIdForPick (r * n) order = getCoachIdForPick (r * n) order)
  ∧ (r = 2 → getCoachIdForPick (r * n) order = head order
             ∧ getNextCoachIdForPick (r * n) order = last order).
Proof.
  intros Hne Hr n.
  assert (0 < length order)%nat as Hlen by (destruct order; simpl; [done|lia]).
  assert (getCoachIdForPick (r * n) order
          = if decide (reversed_round r) then order !! 0%nat
            else order !! (length order - 1)%nat) as Hlast.
  { replace (r * n) with ((r - 1) * n + Z.of_nat (length order - 1) + 1) by (unfold n; lia).
    unfold n. rewrite getCoachIdForPick_slot by lia.
    case_decide; [|done]. rewrite reverse_lookup by lia. f_equal. lia. }
  assert (getNextCoachIdForPick (r * n) order
          = if decide (reversed_round (r + 1)) then order !! (length order - 1)%nat
            else order !! 0%nat) as Hnext.
  { unfold getNextCoachIdForPick.
    replace (r * n + 1) with ((r + 1 - 1) * n + Z.of_nat 0 + 1) by lia.
    unfold n. rewrite getCoachIdForPick_slot by lia.
    destruct (decide (reversed_round (r + 1))); [|done].
    rewrite reverse_lookup by lia. f_equal; lia. }
  rewrite Hlast, Hnext. split.
  - intros Hr2. pose proof (reversed_round_flip r Hr Hr2) as Hflip.
    destruct (decide (reversed_round r)), (decide (reversed_round (r + 1)));
      tauto.
  - intros ->. rewrite decide_True by (left; done).
    rewrite decide_True by (right; left; done).
    rewrite head_lookup, last_lookup. split; [done|]. f_equal. lia.
Qed.

Lemma round_boundary_witness :
  getNextCoachIdForPick 3 ["A"; "B"; "C"] = getCoachIdForPick 3 ["A"; "B"; "C"]
  ∧ getCoachIdForPick 6 ["A"; "B"; "C"] = Some "A"
  ∧ getNextCoachIdForPick 6 ["A"; "B"; "C"] = Some "C".
Proof.
  split.
  - apply (proj1 (round_boundary ["A"; "B"; "C"] 1 ltac:(done) ltac:(lia))). lia.
  - apply (proj2 (round_boundary ["A"; "B"; "C"] 2 ltac:(done) ltac:(lia))).
    reflexivity.
Defined.

(** X5. Pick numbers below 1 are not rejected: for p <= 0 and a non-empty
    order the resolver returns the first coach of the order when N divides
    p - 1, and [null] for every other p. *)
Theorem getCoachIdForPick_below_one (order : list string) (p : Z) :
  order ≠ [] → p ≤ 0 →
  getCoachIdForPick p order
  = if decide ((p - 1) `rem` Z.of_nat (length order) = 0) then head order else None.
Proof.
  intros Hne Hp. set (n := Z.of_nat (length order)).
  assert (0 < n) by (destruct order; unfold n; simpl; [done|lia]).
  unfold getCoachIdForPick. fold n. rewrite decide_False by lia.
  assert (ceil_div p n ≤ 0) as Hround.
  { unfold ceil_div. pose proof (Z.div_pos (- p) n ltac:(lia) ltac:(lia)). lia. }
  rewrite !bool_decide_eq_false_2 by lia. simpl.
  unfold js_rem, js_index.
  pose proof (Z.rem_nonpos (p - 1) n ltac:(lia) ltac:(lia)) as Hrem.
  destruct (decide ((p - 1) `rem` n = 0)) as [Hz|Hz].
  - rewrite decide_True by lia. rewrite Hz. by rewrite head_lookup.
  - rewrite decide_False by lia. done.
Qed.

Lemma getCoachIdForPick_below_one_witness :
  getCoachIdForPick 0 ["A"; "B"; "C"] = None
  ∧ getCoachIdForPick (-2) ["A"; "B"; "C"] = Some "A".
Proof.
  split.
  - apply (getCoachIdForPick_below_one ["A"; "B"; "C"] 0); [done | lia].
  - apply (getCoachIdForPick_below_one ["A"; "B"; "C"] (-2)); [done | lia].
Defined.

(** ** The turn indicator and the Draft button *)

Lemma isMyTurn_true v :
  isMyTurn v = true →
  ∃ rm c,
    room v = Some rm ∧ coach v = Some c ∧ Room.draft_order rm ≠ []
    ∧ getCoachIdForPick (Z.of_nat (length (picks v)) + 1) (Room.draft_order rm)
      = Some (Coach.id c).
Proof.
  unfold isMyTurn, onTheClockCoachId, nextOverallPick.
  destruct (coach v) as [c|]; [|done]. destruct (room v) as [rm|]; [|done].
  case_decide; [done|].
  destruct (getCoachIdForPick _ _) as [cid|] eqn:Hx; [|done].
  case_decide; [done|]. intros Hb%bool_decide_eq_true. exists rm, c. by rewrite Hb.
Qed.

Lemma isMyTurn_false v rm c :
  room v = Some rm → coach v = Some c → Coach.id c ≠ EmptyString →
  isMyTurn v = false →
  Room.draft_order rm = []
  ∨ getCoachIdForPick (Z.of_nat (length (picks v)) + 1) (Room.draft_order rm)
    ≠ Some (Coach.id c).
Proof.
  intros Hr Hc Hid. unfold isMyTurn, onTheClockCoachId, nextOverallPick.
  rewrite Hr, Hc.
  destruct (decide (Room.draft_order rm = [])) as [|Ho]; [by left|].
  destruct (getCoachIdForPick _ _) as [cid|] eqn:Hx; [|by right].
  destruct (decide (Coach.id c = EmptyString ∨ cid = EmptyString)) as [Hempty|_].
  - intros _. right. destruct Hempty as [?| ->]; [done|].
    intros [= Heq]. by apply Hid.
  - intros Hb%bool_decide_eq_false. right. intros [= Heq]. by apply Hb.
Qed.

(** X6. The turn indicator agrees with the turn check of the pick path.
    When [isMyTurn] holds, a submission is never answered NotLoaded,
    InvalidConfiguration or OutOfTurn.  When it does not hold for a loaded
    room and a loaded coach with a non-empty id, every submission is answered
    InvalidConfiguration or OutOfTurn and changes nothing. *)
Theorem isMyTurn_turn_check e player v db :
  (isMyTurn v = true →
   (draftPlayer e player v db).1.1 ∉ [NotLoaded; InvalidConfiguration; OutOfTurn])
  ∧ (∀ rm c,
       room v = Some rm → coach v = Some c → Coach.id c ≠ EmptyString →
       isMyTurn v = false →
       (draftPlayer e player v db).1.1 ∈ [InvalidConfiguration; OutOfTurn]
       ∧ draftPlayer e player v db = ((draftPlayer e player v db).1.1, v, db)).
Proof.
  split.
  - intros (rm & c & Hr & Hc & Ho & Hx)%isMyTurn_true.
    unfold draftPlayer. rewrite Hr, Hc.
    rewrite decide_False by done. rewrite decide_False by auto.
    rewrite !elem_of_cons, elem_of_nil.
    repeat case_decide; simpl; [by intros [?|[?|[?|[]]]]..|].
    destruct (insert_error e); simpl; by intros [?|[?|[?|[]]]].
  - intros rm c Hr Hc Hid Hturn.
    destruct (isMyTurn_false v rm c Hr Hc Hid Hturn) as [Ho|Hx].
    + rewrite (draftPlayer_no_order e player v db rm c) by done. simpl.
      split; [by_compute | done].
    + destruct (decide (Room.draft_order rm = [])) as [Ho|Ho].
      * rewrite (draftPlayer_no_order e player v db rm c) by done. simpl.
        split; [by_compute | done].
      * rewrite (draftPlayer_out_of_turn e player v db rm c) by done. simpl.
        split; [by_compute | done].
Qed.

Lemma isMyTurn_turn_check_witness :
  isMyTurn (Example.session Example.coachB Example.db1) = true
  ∧ (draftPlayer (Example.env "k2" 2) Example.p3
       (Example.session Example.coachA Example.db1) Example.db1).1.1
    ∈ [InvalidConfiguration; OutOfTurn].
Proof.
  split; [by vm_compute|].
  apply (proj2 (isMyTurn_turn_check (Example.env "k2" 2) Example.p3
                  (Example.session Example.coachA Example.db1) Example.db1)
           Example.room0 Example.coachA); [reflexivity | reflexivity | done | by vm_compute].
Defined.

(** X7. The pool and the button screen every check the pick path makes on
    the session: a player of the pool is never answered AlreadyDrafted, and
    when its Draft button is enabled the submission reaches the database, so
    it is committed unless the database reports an error. *)
Theorem enabled_button_reaches_database (toLowerCase trim : string → string)
    e busy v db player :
  player ∈ availablePlayers toLowerCase trim v →
  (draftPlayer e player v db).1.1 ≠ AlreadyDrafted
  ∧ (draftDisabled busy v player = false →
     (insert_error e = None → (draftPlayer e player v db).1.1 = Committed)
     ∧ (∀ msg, insert_error e = Some msg →
               draftPlayer e player v db = (DbError msg, v, db))).
Proof.
  unfold availablePlayers. rewrite !list_elem_of_filter.
  intros (_ & _ & Hfree & _ & _). split.
  - unfold draftPlayer.
    destruct (room v); [|done]. destruct (coach v); [|done].
    repeat case_decide; try done. by destruct (insert_error e).
  - unfold draftDisabled. rewrite !orb_false_iff, negb_false_iff.
    intros [[(rm & c & Hr & Hc & Ho & Hx)%isMyTurn_true Hteam%bool_decide_eq_false] _].
    rewrite (draftPlayer_insert e player v db rm c) by done.
    split; [by intros -> | by intros msg ->].
Qed.

Lemma enabled_button_reaches_database_witness :
  (draftPlayer (Example.env "k2" 2) Example.p3
     (Example.session Example.coachB Example.db1) Example.db1).1.1 = Committed.
Proof.
  apply (enabled_button_reaches_database ascii_toLowerCase ascii_trim
           (Example.env "k2" 2) None
           (Example.session Example.coachB Example.db1) Example.db1 Example.p3);
    [by_compute | by vm_compute | reflexivity].
Defined.

(** ** After a committed pick *)

Lemma committed_reload rm e player v db v' db' :
  loaded_from rm v db → load_error e = None →
  draftPlayer e player v db = (Committed, v', db') →
  v' = set_picks v (select_picks (Room.id rm) db') ∧ loaded_from rm v' db'.
Proof.
  intros Hload Hle Hd.
  apply draftPlayer_Committed_inv in Hd as Hinv.
  destruct Hinv as (rm' & c & Hr & Hc & Ho & Hx & Ht & Hdr & Hins & Hdb).
  destruct Hload as [Hr' Hp]. rewrite Hr' in Hr. injection Hr as <-.
  rewrite (draftPlayer_insert e player v db rm c), Hins in Hd by done.
  injection Hd as <- <-. unfold loadPicks. rewrite Hle. done.
Qed.

(** X8. After a pick committed from a session that had loaded the current
    picks, the reloaded session counts one pick more and shows on the clock
    the coach it showed as up next before. *)
Theorem commit_advances_clock rm e player v db v' db' :
  loaded_from rm v db → load_error e = None →
  draftPlayer e player v db = (Committed, v', db') →
  nextOverallPick v' = nextOverallPick v + 1
  ∧ onTheClockCoachId v' = upNextCoachId v.
Proof.
  intros Hload Hle Hd.
  destruct (committed_reload _ _ _ _ _ _ _ Hload Hle Hd) as [-> [_ Hp']].
  destruct (draftPlayer_fresh_append _ _ _ _ _ _ _ Hload Hd) as (c & _ & _ & Hl).
  assert (nextOverallPick (set_picks v (select_picks (Room.id rm) db'))
          = nextOverallPick v + 1) as Hnext.
  { unfold nextOverallPick. simpl. destruct Hload as [_ ->].
    rewrite !select_picks_length, Hl, length_app. simpl. lia. }
  split; [done|].
  unfold onTheClockCoachId, upNextCoachId. by rewrite Hnext.
Qed.

Lemma commit_advances_clock_witness :
  onTheClockCoachId (Example.session Example.coachA Example.db1)
  = upNextCoachId (Example.session Example.coachA Example.db0).
Proof.
  apply (commit_advances_clock Example.room0 (Example.env "k1" 1) Example.p1
           (Example.session Example.coachA Example.db0) Example.db0
           (Example.session Example.coachA Example.db1) Example.db1);
    [apply example_loaded | reflexivity | by vm_compute].
Defined.

(** X9. After a pick committed from a session that had loaded the current
    picks, the pool of the reloaded session is the old pool without the
    drafted player, in the same order. *)
Theorem commit_shrinks_pool (toLowerCase trim : string → string)
    rm e player v db v' db' :
  loaded_from rm v db → load_error e = None →
  draftPlayer e player v db = (Committed, v', db') →
  availablePlayers toLowerCase trim v'
  = filter (λ q, Player.id q ≠ Player.id player) (availablePlayers toLowerCase trim v).
Proof.
  intros Hload Hle Hd.
  destruct (committed_reload _ _ _ _ _ _ _ Hload Hle Hd) as [Hv' Hload'].
  destruct (draftPlayer_fresh_append _ _ _ _ _ _ _ Hload Hd) as (c & _ & _ & Hl).
  unfold availablePlayers.
  replace (search v') with (search v) by by rewrite Hv'.
  replace (posFilter v') with (posFilter v) by by rewrite Hv'.
  replace (players v') with (players v) by by rewrite Hv'.
  rewrite (filter_comm (λ q, Player.id q ≠ Player.id player)).
  rewrite (filter_comm (λ q, Player.id q ≠ Player.id player)).
  do 2 f_equal.
  rewrite (list_filter_filter (λ q, Player.id q ≠ Player.id player)
             (λ p, Player.id p ∉ draftedPlayerIds v)).
  apply list_filter_iff. intros q.
  rewrite (draftedPlayerIds_loaded rm v' db') by done.
  rewrite (draftedPlayerIds_loaded rm v db) by done.
  rewrite Hl, fmap_app, elem_of_app. simpl. rewrite list_elem_of_singleton. tauto.
Qed.

Lemma commit_shrinks_pool_witness :
  availablePlayers ascii_toLowerCase ascii_trim
    (Example.session Example.coachA Example.db1)
  = filter (λ q, Player.id q ≠ "p1")
      (availablePlayers ascii_toLowerCase ascii_trim
         (Example.session Example.coachA Example.db0)).
Proof.
  apply (commit_shrinks_pool ascii_toLowerCase ascii_trim Example.room0
           (Example.env "k1" 1) Example.p1
           (Example.session Example.coachA Example.db0) Example.db0
           (Example.session Example.coachA Example.db1) Example.db1);
    [apply example_loaded | reflexivity | by vm_compute].
Defined.

(** X10. After a pick of a catalog player with a non-empty NFL team,
    committed from a session that had loaded the current picks, the reloaded
    session lists that team among the teams used and disables the Draft
    button of every player of that team. *)
Theorem commit_uses_team rm e player v db v' db' :
  loaded_from rm v db → load_error e = None →
  NoDup (Player.id <$> players_tbl db) → player ∈ players_tbl db →
  Player.nfl_team player ≠ EmptyString →
  draftPlayer e player v db = (Committed, v', db') →
  Player.nfl_team player ∈ myTeamsUsed v'
  ∧ ∀ busy q, Player.nfl_team q = Player.nfl_team player →
              draftDisabled busy v' q = true.
Proof.
  intros Hload Hle Hnd Hcat Hne Hd.
  destruct (committed_reload _ _ _ _ _ _ _ Hload Hle Hd) as [Hv' Hload'].
  destruct (draftPlayer_fresh_append _ _ _ _ _ _ _ Hload Hd) as (c & Hc & Hdb & Hl).
  assert (coach v' = Some c) as Hc' by by rewrite Hv'.
  assert (Player.nfl_team player ∈ myTeamsUsed v') as Hused.
  { apply (myTeamsUsed_loaded rm v' db' c); [done..|].
    apply elem_of_teams_of. split; [done|].
    eexists. split_and!.
    - rewrite Hl. apply elem_of_app. right. by apply list_elem_of_singleton.
    - done.
    - unfold affiliation. simpl. rewrite Hdb.
      change (find_player (insert_pick ?r db)) with (find_player db).
      by rewrite find_player_elem_of. }
  split; [done|]. intros busy q Hq. unfold draftDisabled.
  rewrite Hq, (bool_decide_eq_true_2 _ Hused). by rewrite orb_true_r.
Qed.

Lemma commit_uses_team_witness :
  "KC" ∈ myTeamsUsed (Example.session Example.coachA Example.db1).
Proof.
  apply (commit_uses_team Example.room0 (Example.env "k1" 1) Example.p1
           (Example.session Example.coachA Example.db0) Example.db0
           (Example.session Example.coachA Example.db1) Example.db1);
    [apply example_loaded | reflexivity | by_compute | by_compute | done | by vm_compute].
Defined.

(** ** What the actions do to the tables *)

(** X11. Whatever the session shows, [draftPlayer] never edits or removes a
    stored pick and never touches the players, the coaches or the ledger of
    another room: the picks table keeps its rows in place and grows by at
    most one row. *)
Theorem draftPlayer_append_only e player v db :
  let db' := (draftPlayer e player v db).2 in
  players_tbl db' = players_tbl db
  ∧ coaches_tbl db' = coaches_tbl db
  ∧ picks_tbl db `prefix_of` picks_tbl db'
  ∧ (length (picks_tbl db') ≤ length (picks_tbl db) + 1)%nat
  ∧ (∀ rm roomId', room v = Some rm → roomId' ≠ Room.id rm →
                   ledger roomId' db' = ledger roomId' db).
Proof.
  destruct (draftPlayer e player v db) as [[o v'] db'] eqn:Hd. simpl.
  destruct (decide (o = Committed)) as [-> | Ho].
  - apply draftPlayer_Committed_inv in Hd
      as (rm' & c & Hr & _ & _ & _ & _ & _ & _ & ->).
    split_and!; try done.
    + simpl. by apply prefix_app_r.
    + simpl. rewrite length_app. simpl. lia.
    + intros rm roomId' Hr' Hne. rewrite Hr in Hr'. injection Hr' as ->.
      rewrite ledger_insert_pick. simpl. rewrite decide_False by done.
      by rewrite app_nil_r.
  - pose proof (draftPlayer_rejected e player v db) as Hrej.
    rewrite Hd in Hrej. simpl in Hrej. specialize (Hrej Ho). injection Hrej as _ <-.
    split_and!; try done. lia.
Qed.

(** Undo removes, among the picks with the largest number, the one created
    last. *)
Lemma latest_pick_newest roomId db latest :
  latest_pick roomId db = Some latest →
  ∀ r, r ∈ ledger roomId db → r = latest ∨ newer_first latest r.
Proof.
  unfold latest_pick. intros Hh.
  pose proof (merge_sort_Permutation newer_first (ledger roomId db)) as Hp.
  pose proof (StronglySorted_merge_sort newer_first (ledger roomId db)) as Hs.
  apply head_Some in Hh as [rest Hrest]. rewrite Hrest in Hp, Hs.
  intros r Hr. rewrite <- Hp in Hr.
  apply elem_of_cons in Hr as [-> | Hr]; [by left|]. right.
  apply StronglySorted_inv in Hs as [_ Hall].
  rewrite Forall_forall in Hall. by apply Hall.
Qed.

(** X12. Undo decides on the stored picks, not on what the session shows:
    the row it deletes is a row of the room whose pick number is the largest
    and, among the rows with that number, whose creation time is the latest. *)
Theorem undoLastPick_removes_newest e v db v' db' :
  undoLastPick e v db = (Undone, v', db') →
  ∃ rm latest,
    room v = Some rm
    ∧ latest ∈ ledger (Room.id rm) db
    ∧ db' = delete_pick (PickRec.id latest) db
    ∧ ∀ r, r ∈ ledger (Room.id rm) db →
           PickRec.round r < PickRec.round latest
           ∨ (PickRec.round r = PickRec.round latest
              ∧ PickRec.created_at r ≤ PickRec.created_at latest).
Proof.
  intros (rm & latest & Hr & Hl & ->)%undoLastPick_Undone_inv.
  exists rm, latest.
  split_and!; [done | apply (latest_pick_Some _ _ _ Hl) | done |].
  intros r Hin. destruct (latest_pick_newest _ _ _ Hl r Hin) as [-> | Hn].
  - right. split; [done | lia].
  - unfold newer_first in Hn. destruct Hn as [? | [-> ?]]; [by left | by right].
Qed.

Lemma undoLastPick_removes_newest_witness :
  ∃ rm latest,
    room (Example.session Example.coachA Example.db0) = Some rm
    ∧ latest ∈ ledger (Room.id rm) Example.db1_stale
    ∧ Example.db1 = delete_pick (PickRec.id latest) Example.db1_stale
    ∧ ∀ r, r ∈ ledger (Room.id rm) Example.db1_stale →
           PickRec.round r < PickRec.round latest
           ∨ (PickRec.round r = PickRec.round latest
              ∧ PickRec.created_at r ≤ PickRec.created_at latest).
Proof.
  apply (undoLastPick_removes_newest (Example.env "k3" 3)
           (Example.session Example.coachA Example.db0) Example.db1_stale
           (Example.session Example.coachA Example.db1) Example.db1).
  by vm_compute.
Defined.

(** X13. A pick followed by an undo is a round trip.  When the stored pick
    numbers of the room are 1..length, a pick is committed from a session
    that has loaded them, under a row id not in use, and the commissioner
    then undoes the latest pick from any session of the room, the database
    is again what it was before the pick. *)
Theorem draft_then_undo rm e1 player v1 db v1' db1 e2 v2 v2' db2 :
  PickRec.round <$> ledger (Room.id rm) db
  = Z.of_nat <$> seq 1 (length (ledger (Room.id rm) db)) →
  new_id e1 ∉ (PickRec.id <$> picks_tbl db) →
  loaded_from rm v1 db →
  draftPlayer e1 player v1 db = (Committed, v1', db1) →
  room v2 = Some rm →
  undoLastPick e2 v2 db1 = (Undone, v2', db2) →
  db2 = db.
Proof.
  intros Hrounds Hfresh Hload Hd Hr2 Hu.
  destruct (draftPlayer_fresh_append _ _ _ _ _ _ _ Hload Hd) as (c & _ & -> & Hl).
  apply undoLastPick_Undone_inv in Hu as (rm' & latest & Hr' & Hlatest & ->).
  rewrite Hr2 in Hr'. injection Hr' as <-.
  destruct (latest_pick_Some _ _ _ Hlatest) as [Hin Hmax].
  set (row := PickRec.mk (new_id e1) (Room.id rm) (Coach.id c)
                (Z.of_nat (length (ledger (Room.id rm) db)) + 1)
                (Player.id player) (now e1)) in *.
  assert (latest = row) as ->.
  { rewrite Hl in Hin. apply elem_of_app in Hin as [Hin | Hin];
      [|by apply list_elem_of_singleton in Hin].
    assert (PickRec.round row ≤ PickRec.round latest) as Hle.
    { apply Hmax. rewrite Hl, elem_of_app. right. by apply list_elem_of_singleton. }
    apply (list_elem_of_fmap_2 PickRec.round) in Hin.
    rewrite Hrounds in Hin. apply list_elem_of_fmap in Hin as (k & Hk & Hseq).
    apply elem_of_seq in Hseq. simpl in Hle. lia. }
  unfold delete_pick, insert_pick. simpl.
  rewrite filter_app, filter_cons_False, filter_nil, app_nil_r by (simpl; auto).
  rewrite filter_all; [by destruct db|].
  apply Forall_forall. intros r Hr Heq. apply Hfresh. rewrite <- Heq.
  by apply list_elem_of_fmap_2.
Qed.

Lemma draft_then_undo_witness :
  (undoLastPick (Example.env "k3" 3)
     (Example.session Example.coachA Example.db1) Example.db2).2 = Example.db1.
Proof.
  apply (draft_then_undo Example.room0 (Example.env "k2" 2) Example.p3
           (Example.session Example.coachB Example.db1) Example.db1
           (Example.session Example.coachB Example.db2) Example.db2
           (Example.env "k3" 3) (Example.session Example.coachA Example.db1)
           (undoLastPick (Example.env "k3" 3)
              (Example.session Example.coachA Example.db1) Example.db2).1.2);
    [by vm_compute | by_compute | apply example_loaded | by vm_compute
    | reflexivity | by vm_compute].
Defined.

(** ** The ledger follows the draft order *)

Lemma history_fresh_in_turn rm h :
  history fresh_snapshot rm h →
  ∀ db past, h = db :: past →
  ∀ i r, ledger (Room.id rm) db !! i = Some r →
         getCoachIdForPick (Z.of_nat i + 1) (Room.draft_order rm)
         = Some (PickRec.coach_id r).
Proof.
  induction 1 as [db Hopen
                 | e player v seen db past v' db' Hh IH Hrule Hload Hcat Hid Hd
                 | e v seen db past v' db' Hh IH Hrule Hload Hu];
    intros db1 past1 Heq i r Hi; injection Heq as <- <-.
  - destruct Hopen as [Hl _]. by rewrite Hl in Hi.
  - unfold fresh_snapshot in Hrule. subst seen.
    destruct (draftPlayer_fresh_append _ _ _ _ _ _ _ Hload Hd) as (c & Hc & _ & Hl).
    apply draftPlayer_Committed_inv in Hd as (rm' & c' & Hr & Hc' & _ & Hx & _).
    destruct Hload as [Hr' Hp]. rewrite Hr' in Hr. injection Hr as <-.
    rewrite Hc in Hc'. injection Hc' as <-.
    rewrite Hl in Hi. apply lookup_snoc_Some in Hi as [[_ Hi] | [-> <-]].
    + by eapply IH.
    + simpl. by rewrite <- Hx, Hp, select_picks_length.
  - destruct Hload as [Hr _].
    pose proof (history_fresh_consistent rm _ Hh db past eq_refl) as Hcons.
    destruct (consistent_undo _ _ _ _ _ _ Hcons Hr Hu) as [_ [latest Hl]].
    eapply (IH db past eq_refl i). rewrite Hl. by apply lookup_app_l_Some.
Qed.

(** X14. In a ledger reached by picks and undos that are each made from a
    session that has loaded the current picks, the i-th stored pick carries
    the number i and was made by the coach the resolver names for pick i. *)
Theorem fresh_history_in_turn rm db past (i : nat) (r : PickRec.t) :
  history fresh_snapshot rm (db :: past) →
  ledger (Room.id rm) db !! i = Some r →
  PickRec.round r = Z.of_nat i + 1
  ∧ getCoachIdForPick (PickRec.round r) (Room.draft_order rm)
    = Some (PickRec.coach_id r).
Proof.
  intros Hh Hi.
  pose proof (history_fresh_consistent rm _ Hh db past eq_refl) as Hcons.
  assert (PickRec.round r = Z.of_nat i + 1) as Hround.
  { pose proof (rounds_contiguous _ _ Hcons) as Hrounds.
    apply (f_equal (.!! i)) in Hrounds.
    rewrite !list_lookup_fmap, Hi in Hrounds. simpl in Hrounds.
    apply lookup_lt_Some in Hi as Hlt.
    rewrite lookup_seq_lt in Hrounds by done. injection Hrounds as ->. lia. }
  split; [done|]. rewrite Hround.
  by apply (history_fresh_in_turn rm _ Hh db past eq_refl).
Qed.

Lemma fresh_history_in_turn_witness :
  getCoachIdForPick 2 ["A"; "B"] = Some "B".
Proof.
  apply (fresh_history_in_turn Example.room0 Example.db2
           [Example.db1; Example.db0] 1
           (PickRec.mk "k2" "room-1" "B" 2 "p3" 2) example_fresh_history).
  reflexivity.
Defined.

Lemma count_NoDup (l : list string) (c : string) :
  NoDup l → c ∈ l → length (filter (λ x, x = c) l) = 1%nat.
Proof.
  induction 1 as [|x l Hx Hnd IH]; [by intros ?%elem_of_nil|].
  rewrite elem_of_cons, filter_cons. intros [-> | Hin].
  - rewrite decide_True by done. simpl. f_equal.
    destruct (filter (λ y, y = x) l) as [|y ?] eqn:Hf; [done|].
    assert (y ∈ filter (λ y, y = x) l) as Hy by (rewrite Hf; left).
    apply list_elem_of_filter in Hy as [-> ?]. done.
  - rewrite decide_False by (intros ->; done). by apply IH.
Qed.

(** The coaches of a complete round are the draft order, one way or the
    other. *)
Lemma round_block (order block : list string) (r : Z) :
  1 ≤ r → length block = length order →
  (∀ k x, block !! k = Some x →
          getCoachIdForPick ((r - 1) * Z.of_nat (length order) + Z.of_nat k + 1) order
          = Some x) →
  block = if decide (reversed_round r) then reverse order else order.
Proof.
  intros Hr Hlen Hturn. apply list_eq. intros k.
  destruct (block !! k) as [x|] eqn:Hk.
  - apply lookup_lt_Some in Hk as Hlt. rewrite Hlen in Hlt.
    apply Hturn in Hk. rewrite getCoachIdForPick_slot in Hk by done.
    by case_decide.
  - apply lookup_ge_None in Hk. rewrite Hlen in Hk.
    symmetry. apply lookup_ge_None. case_decide; rewrite ?length_reverse; lia.
Qed.

Lemma count_in_turn (order : list string) (c : string) (R : nat) :
  NoDup order → c ∈ order →
  ∀ cs : list string,
    length cs = (R * length order)%nat →
    (∀ i x, cs !! i = Some x →
            getCoachIdForPick (Z.of_nat i + 1) order = Some x) →
    length (filter (λ x, x = c) cs) = R.
Proof.
  intros Hnd Hc. induction R as [|R IH]; intros cs Hlen Hturn.
  { by destruct cs. }
  rewrite <- (take_drop (R * length order) cs), filter_app, length_app.
  rewrite (IH (take (R * length order) cs)).
  - rewrite (round_block order (drop (R * length order) cs) (Z.of_nat R + 1)).
    + case_decide.
      * rewrite filter_reverse, length_reverse, count_NoDup by done. lia.
      * rewrite count_NoDup by done. lia.
    + lia.
    + rewrite length_drop. lia.
    + intros k x Hk. rewrite lookup_drop in Hk. apply Hturn in Hk.
      rewrite <- Hk. f_equal. lia.
  - rewrite length_take. lia.
  - intros i x Hi. apply lookup_take_Some in Hi as [Hi _]. by apply Hturn.
Qed.

(** X15. Once R complete rounds are stored, every coach of a draft order
    without repetitions holds exactly R picks, provided every pick and undo
    was made from a session that had loaded the current picks. *)
Theorem fresh_history_even_rosters rm db past (R : nat) (c : string) :
  history fresh_snapshot rm (db :: past) →
  NoDup (Room.draft_order rm) → c ∈ Room.draft_order rm →
  length (ledger (Room.id rm) db) = (R * length (Room.draft_order rm))%nat →
  length (filter (λ r, PickRec.coach_id r = c) (ledger (Room.id rm) db)) = R.
Proof.
  intros Hh Hnd Hc Hlen.
  rewrite <- (count_in_turn (Room.draft_order rm) c R Hnd Hc
                (PickRec.coach_id <$> ledger (Room.id rm) db)).
  - generalize (ledger (Room.id rm) db). intros l.
    induction l as [|x l IH]; [done|].
    rewrite fmap_cons, !filter_cons. simpl. case_decide; simpl; by rewrite IH.
  - by rewrite length_fmap.
  - intros i x Hi. apply list_lookup_fmap_Some in Hi as (r & -> & Hi).
    by apply (history_fresh_in_turn rm _ Hh db past eq_refl).
Qed.

Lemma fresh_history_even_rosters_witness :
  length (filter (λ r, PickRec.coach_id r = "B") (ledger "room-1" Example.db2))
  = 1%nat.
Proof.
  apply (fresh_history_even_rosters Example.room0 Example.db2
           [Example.db1; Example.db0] 1 "B" example_fresh_history);
    [by_compute | by_compute | by vm_compute].
Defined.

(** X16. Undo gives the turn back.  In a draft whose picks and undos are all
    made from sessions that have loaded the current picks, after a successful
    undo the reloaded session of the commissioner shows on the clock the
    coach whose pick was removed, for the pick number that pick carried. *)
Theorem undo_returns_turn rm db past e v v' db' :
  history fresh_snapshot rm (db :: past) →
  room v = Some rm → load_error e = None →
  undoLastPick e v db = (Undone, v', db') →
  ∃ latest,
    ledger (Room.id rm) db = ledger (Room.id rm) db' ++ [latest]
    ∧ nextOverallPick v' = PickRec.round latest
    ∧ onTheClockCoachId v' = Some (PickRec.coach_id latest).
Proof.
  intros Hh Hr Hle Hu.
  pose proof (history_fresh_consistent rm _ Hh db past eq_refl) as Hcons.
  destruct (consistent_undo _ _ _ _ _ _ Hcons Hr Hu) as [Hcons' [latest Hl]].
  exists latest. split; [done|].
  assert (ledger (Room.id rm) db !! length (ledger (Room.id rm) db') = Some latest)
    as Hi by (rewrite Hl; apply list_lookup_middle; done).
  pose proof (history_fresh_in_turn rm _ Hh db past eq_refl _ _ Hi) as Hturn.
  assert (PickRec.round latest = Z.of_nat (length (ledger (Room.id rm) db')) + 1)
    as Hround.
  { pose proof (rounds_contiguous _ _ Hcons) as Hrounds.
    apply (f_equal (.!! length (ledger (Room.id rm) db'))) in Hrounds.
    rewrite !list_lookup_fmap, Hi in Hrounds. simpl in Hrounds.
    rewrite lookup_seq_lt in Hrounds by (rewrite Hl, length_app; simpl; lia).
    injection Hrounds as ->. lia. }
  apply undoLastPick_Undone_inv in Hu as Hinv.
  destruct Hinv as (rm' & latest' & Hr' & Hlatest & ->).
  rewrite Hr in Hr'. injection Hr' as <-.
  rewrite (undoLastPick_removes e v db rm latest') in Hu.
  - injection Hu as <-. unfold loadPicks. rewrite Hle.
    unfold onTheClockCoachId, nextOverallPick. simpl.
    rewrite Hr, select_picks_length, Hround. split; [done|].
    case_decide as Ho; [|done]. by rewrite Ho in Hturn.
  - done.
  - revert Hu. unfold undoLastPick. rewrite Hr. by case_decide.
  - revert Hu. unfold undoLastPick. rewrite Hr. case_decide; [done|].
    by destruct (isCommissioner v).
  - revert Hu. unfold undoLastPick. rewrite Hr. case_decide; [done|].
    destruct (isCommissioner v); [|done]. by destruct (confirm_ok e).
  - revert Hu. unfold undoLastPick. rewrite Hr. case_decide; [done|].
    destruct (isCommissioner v); [|done]. destruct (confirm_ok e); [|done].
    simpl. by destruct (latest_error e).
  - revert Hu. unfold undoLastPick. rewrite Hr. case_decide; [done|].
    destruct (isCommissioner v); [|done]. destruct (confirm_ok e); [|done].
    simpl. destruct (latest_error e); [done|]. rewrite Hlatest.
    by destruct (delete_error e).
  - done.
Qed.

Lemma undo_returns_turn_witness :
  ∃ latest,
    ledger "room-1" Example.db2 = ledger "room-1" Example.db1 ++ [latest]
    ∧ nextOverallPick (Example.session Example.coachA Example.db1)
      = PickRec.round latest
    ∧ onTheClockCoachId (Example.session Example.coachA Example.db1)
      = Some (PickRec.coach_id latest).
Proof.
  apply (undo_returns_turn Example.room0 Example.db2 [Example.db1; Example.db0]
           (Example.env "k3" 3) (Example.session Example.coachA Example.db1)
           (Example.session Example.coachA Example.db1) Example.db1
           example_fresh_history);
    [reflexivity | reflexivity | by vm_compute].
Defined.

(** ** What a session shows *)

Global Instance by_round_total : Total by_round.
Proof. intros a b. unfold by_round. lia. Qed.

Global Instance by_round_trans : Transitive by_round.
Proof. intros a b c. unfold by_round. lia. Qed.

Lemma contiguous_StronglySorted (l : list PickRow.t) (a : nat) :
  PickRow.round <$> l = Z.of_nat <$> seq a (length l) → StronglySorted by_round l.
Proof.
  revert a. induction l as [|x l IH]; intros a Heq; [constructor|].
  rewrite fmap_cons in Heq. cbn [length seq] in Heq. rewrite fmap_cons in Heq.
  injection Heq as Hx Hl.
  constructor; [by apply (IH (S a))|].
  apply Forall_forall. intros y Hy.
  apply (list_elem_of_fmap_2 PickRow.round) in Hy. rewrite Hl in Hy.
  apply list_elem_of_fmap in Hy as (k & Hyk & Hk). apply elem_of_seq in Hk.
  unfold by_round. lia.
Qed.

Lemma select_picks_contiguous roomId db :
  PickRec.round <$> ledger roomId db
  = Z.of_nat <$> seq 1 (length (ledger roomId db)) →
  select_picks roomId db = join_pick db <$> ledger roomId db.
Proof.
  intros Hrounds.
  assert (PickRow.round <$> (join_pick db <$> ledger roomId db)
          = Z.of_nat <$> seq 1 (length (join_pick db <$> ledger roomId db))) as Hjoin.
  { rewrite <- list_fmap_compose, length_fmap. exact Hrounds. }
  apply (StronglySorted_unique_strong by_round).
  - intros x1 x2 Hx1 Hx2 H12 H21.
    rewrite select_picks_Permutation in Hx1.
    eapply (NoDup_fmap_eq PickRow.round); [|done..|unfold by_round in *; lia].
    rewrite Hjoin. apply NoDup_fmap_2; [apply _|apply NoDup_seq].
  - apply StronglySorted_merge_sort; apply _.
  - by eapply contiguous_StronglySorted.
  - apply select_picks_Permutation.
Qed.

(** X17. In a draft whose picks and undos are all made from sessions that
    have loaded the current picks, a reload shows the stored picks of the
    room in the order they were stored, and their numbers are 1, 2, ... up to
    the number of picks shown. *)
Theorem loaded_picks_in_order rm db past v :
  history fresh_snapshot rm (db :: past) →
  loaded_from rm v db →
  picks v = join_pick db <$> ledger (Room.id rm) db
  ∧ PickRow.round <$> picks v = Z.of_nat <$> seq 1 (length (picks v)).
Proof.
  intros Hh [_ ->].
  pose proof (history_fresh_consistent rm _ Hh db past eq_refl) as Hcons.
  pose proof (rounds_contiguous _ _ Hcons) as Hrounds.
  rewrite select_picks_contiguous by done. split; [done|].
  by rewrite <- list_fmap_compose, length_fmap.
Qed.

Lemma loaded_picks_in_order_witness :
  PickRow.round <$> picks (Example.session Example.coachB Example.db2) = [1; 2].
Proof.
  apply (loaded_picks_in_order Example.room0 Example.db2 [Example.db1; Example.db0]
           (Example.session Example.coachB Example.db2) example_fresh_history).
  apply example_loaded.
Defined.

(** ** Class names *)

Lemma string_app_assoc (s1 s2 s3 : string) :
  (s1 +:+ s2) +:+ s3 = s1 +:+ (s2 +:+ s3).
Proof.
  induction s1 as [|c s1 IH]; [done|].
  change (String c ((s1 +:+ s2) +:+ s3) = String c (s1 +:+ (s2 +:+ s3))).
  by rewrite IH.
Qed.

Lemma concat_space_app (l1 l2 : list string) :
  l1 ≠ [] → l2 ≠ [] →
  String.concat " " (l1 ++ l2)
  = String.concat " " l1 +:+ " " +:+ String.concat " " l2.
Proof.
  intros Hl1 Hl2. induction l1 as [|x l1 IH]; [done|].
  destruct l1 as [|y l1].
  - simpl. by destruct l2.
  - change (String.concat " " ((x :: y :: l1) ++ l2))
      with (x +:+ " " +:+ String.concat " " ((y :: l1) ++ l2)).
    change (String.concat " " (x :: y :: l1))
      with (x +:+ " " +:+ String.concat " " (y :: l1)).
    rewrite IH by done. by rewrite !string_app_assoc.
Qed.

Lemma concat_space_empty (l : list string) :
  Forall (λ s, s ≠ EmptyString) l →
  String.concat " " l = EmptyString ↔ l = [].
Proof.
  intros Hl. split; [|by intros ->].
  destruct Hl as [|x l Hx _]; [done|].
  destruct l; simpl; destruct x; done.
Qed.

(** X18. Nested calls of [cx] flatten: joining the class names of two
    argument lists separately and passing both results to [cx] gives the
    same string as one call on all arguments, also when one of the lists has
    no truthy entry. *)
Theorem cx_flatten (classes1 classes2 : list (option string)) :
  cx [Some (cx classes1); Some (cx classes2)] = cx (classes1 ++ classes2).
Proof.
  unfold cx. rewrite omap_app, filter_app. simpl.
  set (l1 := filter (λ s, s ≠ EmptyString) (omap id classes1)).
  set (l2 := filter (λ s, s ≠ EmptyString) (omap id classes2)).
  assert (∀ l : list string,
            Forall (λ s, s ≠ EmptyString) (filter (λ s, s ≠ EmptyString) l)) as Hne.
  { intros l. apply Forall_forall. by intros s [? _]%list_elem_of_filter. }
  pose proof (concat_space_empty l1 (Hne _)) as H1.
  pose proof (concat_space_empty l2 (Hne _)) as H2.
  rewrite !filter_cons, filter_nil.
  destruct (decide (l1 = [])) as [E1|E1], (decide (l2 = [])) as [E2|E2].
  - rewrite E1, E2. done.
  - rewrite E1. simpl. rewrite decide_True by tauto. done.
  - rewrite E2, app_nil_r. rewrite decide_True by tauto. done.
  - rewrite !decide_True by tauto. by rewrite concat_space_app.
Qed.

(** ** The draft board *)

(** A round ends at the pick numbers that are multiples of N. *)
Lemma ceil_div_next (p n : Z) :
  1 ≤ n → 1 ≤ p → ceil_div (p + 1) n ≠ ceil_div p n ↔ p `mod` n = 0.
Proof.
  intros Hn Hp.
  pose proof (ceil_div_bounds p n ltac:(lia)) as Hb.
  pose proof (Z.div_mod p n ltac:(lia)) as Hdm.
  pose proof (Z.mod_pos_bound p n ltac:(lia)) as Hm.
  remember (ceil_div p n) as r eqn:Er. clear Er.
  destruct (decide (p `mod` n = 0)) as [Hz|Hz].
  - assert (p `div` n = r) as Hq by nia.
    rewrite (ceil_div_spec (p + 1) n (r + 1)) by nia. split; [done|lia].
  - assert (p ≠ r * n) as Hpr
      by (intros Heq; apply Hz; rewrite Heq; apply Z_mod_mult).
    rewrite (ceil_div_spec (p + 1) n r) by lia. split; [done|lia].
Qed.

Lemma draftBoard_lookup (v : View) (i : nat) (pk : PickRow.t) :
  reverse (picks v) !! i = Some pk →
  draftBoard v !! i
  = Some (boardRow v (match i with O => None | S j => reverse (picks v) !! j end) i pk).
Proof. intros Hi. unfold draftBoard. by rewrite list_lookup_imap, Hi. Qed.

Lemma contiguous_reverse_lookup (l : list PickRow.t) (i : nat) (pk : PickRow.t) :
  PickRow.round <$> l = Z.of_nat <$> seq 1 (length l) →
  reverse l !! i = Some pk →
  PickRow.round pk = Z.of_nat (length l) - Z.of_nat i.
Proof.
  intros Hrounds Hi. apply lookup_lt_Some in Hi as Hlt.
  rewrite length_reverse in Hlt. rewrite reverse_lookup in Hi by done.
  apply (f_equal (.!! (length l - S i)%nat)) in Hrounds.
  rewrite !list_lookup_fmap, Hi, lookup_seq_lt in Hrounds by lia.
  simpl in Hrounds. injection Hrounds as ->. lia.
Qed.

(** X19. The draft board of a session whose picks are numbered 1..L and
    whose room has N >= 1 coaches lists the picks newest first: the i-th row
    is pick L - i, labelled with its round and its place in the round, and a
    ROUND header is rendered exactly above the newest pick and above the last
    pick of every round. *)
Theorem draftBoard_rounds (v : View) (i : nat) (row : BoardRow) :
  1 ≤ nCoaches v →
  PickRow.round <$> picks v = Z.of_nat <$> seq 1 (length (picks v)) →
  draftBoard v !! i = Some row →
  let p := Z.of_nat (length (picks v)) - Z.of_nat i in
  1 ≤ p
  ∧ overallPick row = p
  ∧ roundNumber row = ceil_div p (nCoaches v)
  ∧ roundLabel row = Some (roundAndPickInRound p (nCoaches v))
  ∧ (roundChanged row = true ↔ i = 0%nat ∨ p `mod` nCoaches v = 0).
Proof.
  intros Hn Hrounds Hi p.
  assert (length (draftBoard v) = length (picks v)) as Hlen
    by (unfold draftBoard; by rewrite length_imap, length_reverse).
  apply lookup_lt_Some in Hi as Hlt. rewrite Hlen in Hlt.
  destruct (reverse (picks v) !! i) as [pk|] eqn:Hpk;
    [|apply lookup_ge_None in Hpk; rewrite length_reverse in Hpk; lia].
  rewrite (draftBoard_lookup v i pk Hpk) in Hi. injection Hi as <-.
  pose proof (contiguous_reverse_lookup _ _ _ Hrounds Hpk) as Hp. fold p in Hp.
  unfold boardRow. rewrite !(decide_False (P := nCoaches v = 0)) by lia. simpl.
  rewrite Hp. split_and!; [lia | done | done | done |].
  rewrite bool_decide_eq_true.
  destruct i as [|j].
  - split; [by left | done].
  - destruct (reverse (picks v) !! j) as [prev|] eqn:Hprev;
      [|apply lookup_ge_None in Hprev; rewrite length_reverse in Hprev; lia].
    pose proof (contiguous_reverse_lookup _ _ _ Hrounds Hprev) as Hq.
    rewrite decide_False by lia. simpl. rewrite Hq.
    replace (Z.of_nat (length (picks v)) - Z.of_nat j) with (p + 1) by lia.
    pose proof (ceil_div_next p (nCoaches v) Hn ltac:(lia)) as Hnext.
    split.
    + intros Hne. right. apply Hnext. intros Heq. apply Hne. by rewrite Heq.
    + intros [?|Hz]; [done|]. apply Hnext in Hz. intros [= Heq]. done.
Qed.

Lemma draftBoard_rounds_witness :
  let v := Example.session Example.coachB Example.db2 in
  let row := boardRow v None 0 (join_pick Example.db2 (PickRec.mk "k2" "room-1" "B" 2 "p3" 2)) in
  draftBoard v !! 0%nat = Some row
  ∧ roundLabel row = Some (roundAndPickInRound (2 - 0) (nCoaches v)).
Proof.
  intros v row. split; [by vm_compute|].
  apply (draftBoard_rounds v 0 row); by vm_compute.
Defined.

(** ** Grouping rows by coach *)

Lemma upsert_keys {V} (key : string) (init : V) (update : V → V)
    (m : list (string * V)) :
  (upsert key init update m).*1
  = if decide (key ∈ m.*1) then m.*1 else m.*1 ++ [key].
Proof.
  unfold upsert. rewrite <- list_fmap_compose.
  assert (∀ l : list (string * V),
            (fst ∘ (λ kv, if decide (kv.1 = key) then (kv.1, update kv.2) else kv))
              <$> l = l.*1) as Hfst.
  { intros l. apply list_fmap_ext. intros i kv _. simpl. by case_decide. }
  rewrite Hfst. case_decide; [done|]. by rewrite fmap_app.
Qed.

Lemma upsert_elem_of {V} (key : string) (init : V) (update : V → V)
    (m : list (string * V)) (k : string) (t : V) :
  (k, t) ∈ upsert key init update m →
  (k ≠ key ∧ (k, t) ∈ m)
  ∨ (k = key ∧ ∃ t0, t = update t0
                     ∧ ((key, t0) ∈ m ∨ ((key ∉ m.*1) ∧ t0 = init))).
Proof.
  unfold upsert. intros Hin. apply list_elem_of_fmap in Hin as ([k0 t0] & Heq & Hin).
  simpl in Heq.
  assert ((k0, t0) ∈ m ∨ ((key ∉ m.*1) ∧ (k0, t0) = (key, init))) as Hsrc.
  { case_decide; [by left|]. apply elem_of_app in Hin as [?|Hin]; [by left|].
    apply list_elem_of_singleton in Hin. by right. }
  clear Hin. destruct (decide (k0 = key)) as [Hk|Hk].
  - injection Heq as -> ->. right. split; [done|]. exists t0. split; [done|].
    destruct Hsrc as [?|[? [= ? ?]]]; subst; [by left | by right].
  - injection Heq as -> ->. left. split; [done|].
    destruct Hsrc as [?|[? [= ? ?]]]; [done|]. by subst.
Qed.

(** What the loops of [grouped] and [standings] build: one entry per coach
    id that occurs, keys without repetition, and the entry of a key is the
    initial entry of the first row with that key, updated with every row of
    that key in row order. *)
Lemma group_fold {R V} (key : R → string) (init : R → V) (update : R → V → V)
    (rows : list R) :
  let m := foldl (λ m r, upsert (key r) (init r) (update r) m) [] rows in
  NoDup m.*1
  ∧ (∀ k, k ∈ m.*1 ↔ ∃ r, r ∈ rows ∧ key r = k)
  ∧ (∀ k t, (k, t) ∈ m →
            ∃ r0 rs, filter (λ r, key r = k) rows = r0 :: rs
                     ∧ t = foldl (λ acc r, update r acc) (init r0) (r0 :: rs)).
Proof.
  induction rows as [|r rows IH] using rev_ind.
  { simpl. split_and!; [apply NoDup_nil_2 | |].
    - intros k. split; [by intros ?%elem_of_nil | by intros (? & ?%elem_of_nil & _)].
    - by intros k t ?%elem_of_nil. }
  rewrite foldl_snoc. simpl in *.
  set (m := foldl (λ m r, upsert (key r) (init r) (update r) m) [] rows) in *.
  destruct IH as (Hnd & Hkeys & Hent).
  assert (∀ k, k ∈ (upsert (key r) (init r) (update r) m).*1
               ↔ k ∈ m.*1 ∨ k = key r) as Hkeys'.
  { intros k. rewrite upsert_keys. case_decide.
    - split; [by left | by intros [?| ->]].
    - by rewrite elem_of_app, list_elem_of_singleton. }
  split_and!.
  - rewrite upsert_keys. case_decide; [done|]. by apply NoDup_snoc_fresh.
  - intros k. rewrite Hkeys', Hkeys. setoid_rewrite elem_of_app.
    setoid_rewrite list_elem_of_singleton. split.
    + intros [(r' & ? & ?) | ->]; [exists r'; auto | exists r; auto].
    + intros (r' & [? | ->] & ?); [left; by exists r' | by right].
  - intros k t Hin. rewrite filter_app, (filter_cons _ r []), filter_nil.
    apply upsert_elem_of in Hin as [[Hne Hin] | [-> (t0 & -> & Hsrc)]].
    + destruct (Hent k t Hin) as (r0 & rs & Hf & Ht).
      exists r0, rs. rewrite decide_False by done. by rewrite app_nil_r.
    + rewrite decide_True by done. destruct Hsrc as [Hin | [Hnew ->]].
      * destruct (Hent _ _ Hin) as (r0 & rs & Hf & Ht).
        exists r0, (rs ++ [r]). rewrite Hf. split; [done|].
        change (r0 :: rs ++ [r]) with ((r0 :: rs) ++ [r]).
        by rewrite foldl_snoc, <- Ht.
      * exists r, []. split; [|done].
        assert (filter (λ r', key r' = key r) rows = []) as ->; [|done].
        destruct (filter (λ r', key r' = key r) rows) as [|r' l] eqn:Hf; [done|].
        assert (r' ∈ filter (λ r', key r' = key r) rows) as Hr'
          by (rewrite Hf; apply list_elem_of_here).
        apply list_elem_of_filter in Hr' as [Heq Hr'].
        destruct Hnew. apply Hkeys. by exists r'.
Qed.

(** ** The rosters page and the standings table *)

Lemma StronglySorted_lookup {A} (R : relation A) (l : list A) (i j : nat) (x y : A) :
  StronglySorted R l → (i < j)%nat → l !! i = Some x → l !! j = Some y → R x y.
Proof.
  intros Hs. revert i j. induction Hs as [|a l Hs IH Hall]; intros i j Hij Hi Hj.
  - done.
  - destruct j as [|j]; [lia|]. simpl in Hj. destruct i as [|i].
    + injection Hi as <-. rewrite Forall_forall in Hall.
      apply Hall. by eapply list_elem_of_lookup_2.
    + simpl in Hi. apply (IH i j); [lia|done..].
Qed.

Section ScoresFacts.
Context {num : Type}.
Variables (zero : num) (add sub : num → num → num).
Variables (truthy positive : num → bool).
Variable localeCompare : string → string → num.

Lemma jsSort_Permutation {A} (cmp : A → A → num) (l : list A) :
  jsSort positive cmp l ≡ₚ l.
Proof. apply stable_sort_Permutation. Qed.

Lemma roster_entry_fold (l : list (RosterRow.t num)) (e : TeamEntry.t num) :
  foldl (λ acc r,
           TeamEntry.mk (TeamEntry.coach_name acc) (TeamEntry.players acc ++ [r])
             (add (TeamEntry.total acc) (RosterRow.total_points r))) e l
  = TeamEntry.mk (TeamEntry.coach_name e) (TeamEntry.players e ++ l)
      (foldl (λ acc r, add acc (RosterRow.total_points r)) (TeamEntry.total e) l).
Proof.
  revert e. induction l as [|r l IH]; intros e; simpl.
  - rewrite app_nil_r. by destruct e.
  - rewrite IH. simpl. by rewrite <- app_assoc.
Qed.

Lemma points_entry_fold (l : list (PointsRow.t num)) (e : TotalEntry.t num) :
  foldl (λ acc r,
           TotalEntry.mk (TotalEntry.coach_name acc)
             (add (TotalEntry.total acc) (PointsRow.total_points r))) e l
  = TotalEntry.mk (TotalEntry.coach_name e)
      (foldl (λ acc r, add acc (PointsRow.total_points r)) (TotalEntry.total e) l).
Proof.
  revert e. induction l as [|r l IH]; intros e; simpl.
  - by destruct e.
  - by rewrite IH.
Qed.

(** The [Map] of [grouped] after the loop. *)
Lemma roster_map (rows : list (RosterRow.t num)) :
  let m := foldl (add_roster_row zero add) [] rows in
  NoDup m.*1
  ∧ (∀ k, k ∈ m.*1 ↔ ∃ r, r ∈ rows ∧ RosterRow.coach_id r = k)
  ∧ (∀ k e, (k, e) ∈ m →
       let mine := filter (λ r, RosterRow.coach_id r = k) rows in
       TeamEntry.players e = mine
       ∧ TeamEntry.total e = roster_points zero add mine
       ∧ Some (TeamEntry.coach_name e) = RosterRow.coach_name <$> head mine).
Proof.
  destruct (group_fold RosterRow.coach_id
              (λ r, TeamEntry.mk (RosterRow.coach_name r) [] zero)
              (λ r entry,
                 TeamEntry.mk (TeamEntry.coach_name entry)
                   (TeamEntry.players entry ++ [r])
                   (add (TeamEntry.total entry) (RosterRow.total_points r)))
              rows) as (Hnd & Hkeys & Hent).
  split_and!; [exact Hnd | exact Hkeys |].
  intros k e Hin. destruct (Hent k e Hin) as (r0 & rs & Hf & ->).
  simpl. rewrite Hf. rewrite roster_entry_fold. by simpl.
Qed.

(** The [Map] of [standings] after the loop. *)
Lemma points_map (rows : list (PointsRow.t num)) :
  let m := foldl (add_points_row zero add) [] rows in
  NoDup m.*1
  ∧ (∀ k, k ∈ m.*1 ↔ ∃ r, r ∈ rows ∧ PointsRow.coach_id r = k)
  ∧ (∀ k e, (k, e) ∈ m →
       let mine := filter (λ r, PointsRow.coach_id r = k) rows in
       TotalEntry.total e = coach_points zero add mine
       ∧ Some (TotalEntry.coach_name e) = PointsRow.coach_name <$> head mine).
Proof.
  destruct (group_fold PointsRow.coach_id
              (λ r, TotalEntry.mk (PointsRow.coach_name r) zero)
              (λ r entry,
                 TotalEntry.mk (TotalEntry.coach_name entry)
                   (add (TotalEntry.total entry) (PointsRow.total_points r)))
              rows) as (Hnd & Hkeys & Hent).
  split_and!; [exact Hnd | exact Hkeys |].
  intros k e Hin. destruct (Hent k e Hin) as (r0 & rs & Hf & ->).
  simpl. rewrite Hf. rewrite points_entry_fold. by simpl.
Qed.

(** X20.  The rosters page groups the rows by coach: no coach gets two
    teams, every row's coach gets one, and a team holds exactly the rows of
    its coach (in some order), its total is their points added up in row
    order from 0, and its name is the name on the coach's first row. *)
Theorem grouped_partition (rows : list (RosterRow.t num)) :
  let teams := grouped zero add sub truthy positive localeCompare rows in
  NoDup (Team.coach_id <$> teams)
  ∧ (∀ r, r ∈ rows → RosterRow.coach_id r ∈ Team.coach_id <$> teams)
  ∧ (∀ team, team ∈ teams →
       let mine := filter (λ r, RosterRow.coach_id r = Team.coach_id team) rows in
       mine ≠ []
       ∧ Team.players team ≡ₚ mine
       ∧ Team.total team = roster_points zero add mine
       ∧ Some (Team.coach_name team) = RosterRow.coach_name <$> head mine).
Proof.
  intros teams. subst teams. unfold grouped.
  destruct (roster_map rows) as (Hnd & Hkeys & Hent).
  set (m := foldl (add_roster_row zero add) [] rows) in *.
  set (mk := λ kv : string * TeamEntry.t num,
         Team.mk kv.1 (TeamEntry.coach_name kv.2) (TeamEntry.total kv.2)
           (jsSort positive
              (by_points_then_player sub truthy localeCompare)
              (TeamEntry.players kv.2))).
  assert (Team.coach_id <$> (mk <$> m) = m.*1) as Hids.
  { rewrite <- list_fmap_compose. by apply list_fmap_ext. }
  split_and!.
  - rewrite jsSort_Permutation, Hids. exact Hnd.
  - intros r Hr. rewrite jsSort_Permutation, Hids. apply Hkeys. by exists r.
  - intros team Hteam. rewrite jsSort_Permutation in Hteam.
    apply list_elem_of_fmap in Hteam as ([k e] & -> & Hin).
    destruct (Hent k e Hin) as (Hp & Ht & Hn). simpl in *.
    split_and!; [| by rewrite jsSort_Permutation, Hp | done | done].
    intros Hnil. rewrite Hnil in Hn. discriminate Hn.
Qed.

(** X21.  On the rosters page, when the two comparisons order their rows
    (each is total and transitive), no team stands above a team the
    comparison puts strictly before it, and the same holds for the players
    inside every team. *)
Theorem grouped_ordered (rows : list (RosterRow.t num)) :
  let by_team := by_total_then_coach sub truthy localeCompare in
  let by_player := by_points_then_player sub truthy localeCompare in
  let teams := grouped zero add sub truthy positive localeCompare rows in
  Total (sorts_before positive by_team) →
  Transitive (sorts_before positive by_team) →
  Total (sorts_before positive by_player) →
  Transitive (sorts_before positive by_player) →
  (∀ i j a b, (i < j)%nat → teams !! i = Some a → teams !! j = Some b →
              positive (by_team a b) = false)
  ∧ (∀ team i j a b, team ∈ teams → (i < j)%nat →
       Team.players team !! i = Some a → Team.players team !! j = Some b →
       positive (by_player a b) = false).
Proof.
  intros by_team by_player teams Htot Htr Htot' Htr'. split.
  - intros i j a b Hij Ha Hb.
    apply (StronglySorted_lookup (sorts_before positive by_team) teams i j);
      [|done..].
    apply StronglySorted_stable_sort; apply _.
  - intros team i j a b Hteam Hij Ha Hb. subst teams. unfold grouped in Hteam.
    rewrite jsSort_Permutation in Hteam.
    apply list_elem_of_fmap in Hteam as (kv & -> & _). simpl in Ha, Hb.
    apply (StronglySorted_lookup (sorts_before positive by_player) _ i j _ _
             (StronglySorted_stable_sort _ _) Hij Ha Hb).
Qed.

(** The rows of the standings table are the sorted entries, numbered. *)
Lemma standings_lookup (rows : list (PointsRow.t num)) (i : nat)
    (row : StandingsRow.t num) :
  let sorted :=
    jsSort positive (by_points_then_coach sub truthy localeCompare)
      ((λ kv, StandingsRow.mk kv.1 (TotalEntry.coach_name kv.2)
                (TotalEntry.total kv.2) 0)
         <$> foldl (add_points_row zero add) [] rows) in
  standings zero add sub truthy positive localeCompare rows !! i = Some row →
  (i < 12)%nat
  ∧ ∃ r, sorted !! i = Some r
         ∧ row = StandingsRow.mk (StandingsRow.coach_id r) (StandingsRow.coach_name r)
                   (StandingsRow.total_points r) (Z.of_nat i + 1).
Proof.
  intros sorted. unfold standings. fold sorted.
  intros [H Hlt]%lookup_take_Some. split; [done|].
  rewrite list_lookup_imap in H. destruct (sorted !! i) as [r|]; [|done].
  exists r. split; [done|]. by injection H as <-.
Qed.

Lemma standings_ids (rows : list (PointsRow.t num)) :
  StandingsRow.coach_id <$> standings zero add sub truthy positive localeCompare rows
  = take 12
      (StandingsRow.coach_id
         <$> jsSort positive (by_points_then_coach sub truthy localeCompare)
               ((λ kv, StandingsRow.mk kv.1 (TotalEntry.coach_name kv.2)
                         (TotalEntry.total kv.2) 0)
                  <$> foldl (add_points_row zero add) [] rows)).
Proof.
  unfold standings. rewrite fmap_take. f_equal. apply list_eq. intros i.
  rewrite list_lookup_fmap, list_lookup_imap, list_lookup_fmap.
  by destruct (_ !! i).
Qed.

(** X22.  The standings table has one row per coach, at most twelve: it
    has as many rows as there are coaches in the data when these are twelve
    or fewer, and twelve otherwise.  A row's total is the points of its
    coach's rows added up in row order from 0, and its name is the name on
    the coach's first row. *)
Theorem standings_totals (rows : list (PointsRow.t num)) :
  let table := standings zero add sub truthy positive localeCompare rows in
  length table = (12 `min` length (remove_dups (PointsRow.coach_id <$> rows)))%nat
  ∧ NoDup (StandingsRow.coach_id <$> table)
  ∧ (∀ row, row ∈ table →
       let mine := filter (λ r, PointsRow.coach_id r = StandingsRow.coach_id row) rows in
       mine ≠ []
       ∧ StandingsRow.total_points row = coach_points zero add mine
       ∧ Some (StandingsRow.coach_name row) = PointsRow.coach_name <$> head mine).
Proof.
  intros table. subst table.
  destruct (points_map rows) as (Hnd & Hkeys & Hent).
  set (m := foldl (add_points_row zero add) [] rows) in *.
  set (mk := λ kv : string * TotalEntry.t num,
         StandingsRow.mk kv.1 (TotalEntry.coach_name kv.2) (TotalEntry.total kv.2) 0).
  assert (StandingsRow.coach_id <$> (mk <$> m) = m.*1) as Hids.
  { rewrite <- list_fmap_compose. by apply list_fmap_ext. }
  split_and!.
  - unfold standings. fold m. fold mk.
    rewrite length_take, length_imap, jsSort_Permutation, length_fmap.
    rewrite <- (length_fmap fst m). f_equal. apply Permutation_length.
    apply NoDup_Permutation; [done | apply NoDup_remove_dups |].
    intros k. rewrite Hkeys, elem_of_remove_dups, list_elem_of_fmap.
    split; intros (r & ? & ?); by exists r.
  - rewrite standings_ids. fold m. fold mk.
    eapply sublist_NoDup; [|apply sublist_take].
    by rewrite jsSort_Permutation, Hids.
  - intros row Hrow. apply list_elem_of_lookup in Hrow as [i Hi].
    apply standings_lookup in Hi as (_ & r & Hr & ->). fold m in Hr. fold mk in Hr.
    apply list_elem_of_lookup_2 in Hr. rewrite jsSort_Permutation in Hr.
    apply list_elem_of_fmap in Hr as ([k e] & -> & Hin).
    destruct (Hent k e Hin) as (Ht & Hn). simpl in *.
    split_and!; [|done..].
    intros Hnil. rewrite Hnil in Hn. discriminate Hn.
Qed.

(** X23.  The rows of the standings table are ranked 1, 2, ... from the
    top, no rank exceeds 12, and the row colour follows the position: the
    first four rows green, the next four yellow, the rest red. *)
Theorem standings_tiers (rows : list (PointsRow.t num)) (i : nat)
    (row : StandingsRow.t num) :
  standings zero add sub truthy positive localeCompare rows !! i = Some row →
  StandingsRow.rank row = Z.of_nat i + 1
  ∧ 1 ≤ StandingsRow.rank row ≤ 12
  ∧ tierRowClass (StandingsRow.rank row)
    = if decide (i < 4)%nat then "bg-emerald-500/10 ring-1 ring-emerald-400/15"
      else if decide (i < 8)%nat then "bg-amber-500/10 ring-1 ring-amber-400/15"
      else "bg-red-500/10 ring-1 ring-red-400/15".
Proof.
  intros (Hlt & r & _ & ->)%standings_lookup. simpl.
  split_and!; [done | lia | lia |]. unfold tierRowClass.
  repeat case_decide; first [done | lia].
Qed.

(** X24.  When the comparison of the standings page orders the rows (it is
    total and transitive), no row of the table stands above a row the
    comparison puts strictly before it: ranks follow points, then names. *)
Theorem standings_ordered (rows : list (PointsRow.t num)) (i j : nat)
    (a b : StandingsRow.t num) :
  let by_row := by_points_then_coach sub truthy localeCompare in
  let table := standings zero add sub truthy positive localeCompare rows in
  Total (sorts_before positive by_row) →
  Transitive (sorts_before positive by_row) →
  (i < j)%nat → table !! i = Some a → table !! j = Some b →
  positive (by_row a b) = false.
Proof.
  intros by_row table Htot Htr Hij Ha Hb.
  apply standings_lookup in Ha as (_ & ra & Ha & ->).
  apply standings_lookup in Hb as (_ & rb & Hb & ->).
  apply (StronglySorted_lookup (sorts_before positive by_row) _ i j _ _
           (StronglySorted_stable_sort _ _) Hij Ha Hb).
Qed.
End ScoresFacts.

(** With whole-number points and strings compared by code unit, the
    comparisons of both pages order their rows. *)
Lemma example_sorts_before {A} (pts : A → Z) (name : A → string) (a b : A) :
  sorts_before ExampleScores.positive
    (λ a b, or_else ExampleScores.truthy (pts b - pts a)
              (ExampleScores.localeCompare (name a) (name b))) a b
  ↔ pts b < pts a ∨ (pts b = pts a ∧ String.le (name a) (name b)).
Proof.
  unfold sorts_before, or_else, ExampleScores.truthy, ExampleScores.positive,
    ExampleScores.localeCompare.
  rewrite bool_decide_eq_false. case_bool_decide as Hd.
  - split; [lia | intros [?|[? _]]; lia].
  - destruct (decide (name a = name b)) as [Heq|Hne].
    + split; [|lia]. intros _. right. split; [lia|]. by rewrite Heq.
    + destruct (decide (String.le (name a) (name b))) as [Hle|Hle].
      * split; [|lia]. intros _. right. split; [lia|done].
      * split; [lia|]. by intros [?|[_ ?]]; [lia|].
Qed.

Lemma example_order {A} (pts : A → Z) (name : A → string) :
  let R := sorts_before ExampleScores.positive
             (λ a b, or_else ExampleScores.truthy (pts b - pts a)
                       (ExampleScores.localeCompare (name a) (name b))) in
  Total R ∧ Transitive R.
Proof.
  split.
  - intros a b. rewrite !example_sorts_before.
    destruct (Z.lt_trichotomy (pts a) (pts b)) as [?|[Heq|?]]; [by right; left | | by left; left].
    destruct (total String.le (name a) (name b)) as [Hle|Hle].
    + left. right. by split.
    + right. right. by split.
  - intros a b c. rewrite !example_sorts_before.
    intros [?|[? Hab]] [?|[? Hbc]]; [lia..|].
    right. split; [lia|]. by trans (name b).
Qed.

Lemma grouped_ordered_witness :
  ExampleScores.positive
    (by_total_then_coach Z.sub ExampleScores.truthy ExampleScores.localeCompare
       (Team.mk "B" "Blake" 25 [ExampleScores.diggs])
       (Team.mk "A" "Rowland" 22 [ExampleScores.aubrey; ExampleScores.mahomes]))
  = false
  ∧ ExampleScores.positive
      (by_points_then_player Z.sub ExampleScores.truthy ExampleScores.localeCompare
         ExampleScores.aubrey ExampleScores.mahomes)
    = false.
Proof.
  pose proof (grouped_ordered 0 Z.add Z.sub ExampleScores.truthy ExampleScores.positive
           ExampleScores.localeCompare ExampleScores.roster
           (proj1 (example_order Team.total Team.coach_name))
           (proj2 (example_order Team.total Team.coach_name))
           (proj1 (example_order RosterRow.total_points RosterRow.player_name))
           (proj2 (example_order RosterRow.total_points RosterRow.player_name)))
    as [Hteams Hplayers].
  split.
  - apply (Hteams 0%nat 1%nat); [lia | reflexivity | reflexivity].
  - apply (Hplayers
             (Team.mk "A" "Rowland" 22 [ExampleScores.aubrey; ExampleScores.mahomes])
             0%nat 1%nat); [| lia | reflexivity | reflexivity].
    apply (list_elem_of_lookup_2 _ 1%nat). reflexivity.
Defined.

Lemma standings_tiers_witness :
  StandingsRow.rank (StandingsRow.mk "A" "Rowland" 17 2) = 2
  ∧ 1 ≤ 2 ≤ 12
  ∧ tierRowClass 2 = "bg-emerald-500/10 ring-1 ring-emerald-400/15".
Proof.
  apply (standings_tiers 0 Z.add Z.sub ExampleScores.truthy ExampleScores.positive
           ExampleScores.localeCompare ExampleScores.points 1
           (StandingsRow.mk "A" "Rowland" 17 2)).
  reflexivity.
Defined.

Lemma standings_ordered_witness :
  ExampleScores.positive
    (by_points_then_coach Z.sub ExampleScores.truthy ExampleScores.localeCompare
       (StandingsRow.mk "B" "Blake" 25 1) (StandingsRow.mk "A" "Rowland" 17 2))
  = false.
Proof.
  apply (standings_ordered 0 Z.add Z.sub ExampleScores.truthy ExampleScores.positive
           ExampleScores.localeCompare ExampleScores.points 0 1 _ _
           (proj1 (example_order StandingsRow.total_points StandingsRow.coach_name))
           (proj2 (example_order StandingsRow.total_points StandingsRow.coach_name)));
    [lia | reflexivity | reflexivity].
Defined.
